(** * brewblox_mdns.dns_discovery: the discovery session and its wrappers

    A shallow embedding of [_discover], [discover_all] and [discover_one]
    of [src/brewblox_mdns/dns_discovery.py].

    - Python [str] values are modelled as [string] (names on the wire are DNS
      host names) and [str.lower] as ASCII lower-casing.
    - [info.address] is a packed address ([bytes]) or [None];
      [socket.inet_ntoa] accepts exactly four bytes.
    - The value returned by [conf.get_service_info] is a [ServiceInfo] or
      [None]; [add_service] puts it on the queue as it is.
    - The asynchronous generator is a state machine: it is suspended at
      [await queue.get()], suspended at [yield], or finished.  The event loop
      is cooperative, so the generator runs from one suspension point to the
      next without interleaving; [conf.close()] is taken to complete.
    - A consumer that stops reading ends the generator with [aclose()], as
      asyncio does for a generator that is dropped.
    - The wrappers are run against a trace of what happens while they wait:
      fetch results arriving and the timer firing.  Their consumers, as the
      ones in this repository, ask for the next record without awaiting
      anything else in between. *)

From Stdlib Require Import List String Ascii Strings.Byte ZArith QArith Bool Arith Lia.
From Stdlib Require Import DecimalString.
Import ListNotations.
Close Scope Q_scope.
Open Scope string_scope.
Open Scope list_scope.

(** ** Strings *)

Module Str.

(** [c.lower()] on one ASCII character. *)
Definition lower_ascii (c : ascii) : ascii :=
  let n := nat_of_ascii c in
  if ((65 <=? n) && (n <=? 90))%nat then ascii_of_nat (n + 32) else c.

(** A string of ASCII characters only. *)
Fixpoint is_ascii (s : string) : bool :=
  match s with
  | EmptyString => true
  | String c s' => (nat_of_ascii c <? 128)%nat && is_ascii s'
  end.

(** [s.lower()] of a string of ASCII characters; statements about letter
    case say for which strings they are made. *)
Fixpoint lower (s : string) : string :=
  match s with
  | EmptyString => EmptyString
  | String c s' => String (lower_ascii c) (lower s')
  end.

(** [s[:-n]] for [n > 0]: the string without its last [n] characters, the
    empty string when it has fewer. *)
Definition drop_last (n : nat) (s : string) : string :=
  substring 0 (String.length s - n) s.

End Str.

(** ** Data *)

(** [zeroconf.ServiceInfo], the fields the session reads. *)
Record ServiceInfo := {
  name : string;
  server : string;
  address : option (list byte);
  port : Z
}.

(** What [get_service_info] returns and [add_service] enqueues. *)
Definition item := option ServiceInfo.

(** The tuple [addr, info.port, serial] yielded by [_discover]. *)
Record ServiceRecord := {
  rec_address : string;
  rec_port : Z;
  rec_identity : string
}.

Inductive exn :=
| AttributeError
| TypeError
| OSError
| CancelledError
| GeneratorExit
| TimeoutError
| UnboundLocalError
| BadTypeInNameException.

Inductive log_entry :=
| Discovered (serial addr : string) (p : Z)
| Discarding (nm addr : string) (p : Z).

Definition BREWBLOX_DNS_TYPE : string := "_brewblox._tcp.local.".
Definition DEFAULT_TIMEOUT_S : Q := 5%Q.
Definition local_suffix : string := ".local.".
Definition placeholder : string := "0.0.0.0".

(** ** [socket.inet_ntoa] *)

Definition decimal (b : byte) : string :=
  NilZero.string_of_uint (N.to_uint (Byte.to_N b)).

Definition inet_ntoa (packed : option (list byte)) : exn + string :=
  match packed with
  | None => inl TypeError
  | Some [a; b; c; d] =>
      inr (decimal a ++ "." ++ decimal b ++ "." ++ decimal c ++ "." ++ decimal d)%string
  | Some _ => inl OSError
  end.

(** ** The body of the [while True] loop *)

(** [match = f'{id}.local.'.lower() if id else None] *)
Definition match_of (id : option string) : option string :=
  match id with
  | None => None
  | Some EmptyString => None
  | Some s => Some (Str.lower (s ++ local_suffix)%string)
  end.

(** [match is None or info.server.lower() == match] *)
Definition accepts (m : option string) (info : ServiceInfo) : bool :=
  match m with
  | None => true
  | Some mm => String.eqb (Str.lower (server info)) mm
  end.

(** [serial = info.server[:-len('.local.')]] *)
Definition serial_of (info : ServiceInfo) : string :=
  Str.drop_last (String.length local_suffix) (server info).

Inductive verdict :=
| Emit (r : ServiceRecord) (l : log_entry)
| Skip
| Discard (l : log_entry)
| Raise (e : exn).

(** One iteration of the loop on the dequeued [info]. *)
Definition handle (m : option string) (it : item) : verdict :=
  match it with
  | None => Raise AttributeError
  | Some info =>
      match inet_ntoa (address info) with
      | inl e => Raise e
      | inr addr =>
          if String.eqb addr placeholder then Skip
          else if accepts m info then
            let serial := serial_of info in
            Emit {| rec_address := addr; rec_port := port info; rec_identity := serial |}
                 (Discovered serial addr (port info))
          else Discard (Discarding (name info) addr (port info))
      end
  end.

(** ** The asynchronous generator [_discover] *)

(** Where the generator is: not started, suspended at [await queue.get()]
    on an empty queue, suspended at [yield], or finished. *)
Inductive gen_pc := Created | AtGet | AtYield | Finished.

(** The [Zeroconf] instance and its browse subscription. *)
Inductive conf_state := NoConf | Listening (dns_type : string) | Closed.

Record session := {
  pc : gen_pc;
  conf : conf_state;
  queue : list item;
  log : list log_entry
}.

Definition fresh : session :=
  {| pc := Created; conf := NoConf; queue := []; log := [] |}.

(** How control leaves the [try] block. *)
Inductive body_result :=
| BYield (r : ServiceRecord)
| BAwait
| BReturn
| BRaise (e : exn).

(** What the consumer's pending [__anext__] receives. *)
Inductive outcome :=
| Item (r : ServiceRecord)
| StopAsyncIteration
| Error (e : exn).

(** [while True:] from its top with [q] in the queue: the result, what is
    left in the queue and the log. *)
Fixpoint loop (m : option string) (q : list item) (lg : list log_entry)
  : body_result * list item * list log_entry :=
  match q with
  | [] => (BAwait, [], lg)
  | it :: q' =>
      match handle m it with
      | Raise e => (BRaise e, q', lg)
      | Skip => loop m q' lg
      | Emit r l => (BYield r, q', lg ++ [l])
      | Discard l => loop m q' (lg ++ [l])
      end
  end.

(** [finally: await conf.close()] *)
Definition close (c : conf_state) (q : list item) (lg : list log_entry) : session :=
  {| pc := Finished; conf := Closed; queue := q; log := lg |}.

(** [try: ... finally: ...] around a run of the body: a suspension leaves
    the block pending, [return] and an exception go through [close]. *)
Definition try_finally (c : conf_state) (res : body_result * list item * list log_entry)
  : option outcome * session :=
  let '(b, q, lg) := res in
  match b with
  | BYield r => (Some (Item r), {| pc := AtYield; conf := c; queue := q; log := lg |})
  | BAwait => (None, {| pc := AtGet; conf := c; queue := q; log := lg |})
  | BReturn => (Some StopAsyncIteration, close c q lg)
  | BRaise e => (Some (Error e), close c q lg)
  end.

Section Discover.

Variables (id : option string) (dns_type : string) (single : bool).

(** [__anext__()]: starts the body, or resumes it after [yield]. *)
Definition anext (s : session) : option outcome * session :=
  match pc s with
  | Created => try_finally (Listening dns_type) (loop (match_of id) [] [])
  | AtYield =>
      if single then try_finally (conf s) (BReturn, queue s, log s)
      else try_finally (conf s) (loop (match_of id) (queue s) (log s))
  | AtGet => (None, s)
  | Finished => (Some StopAsyncIteration, s)
  end.

(** A task [add_service] completes: [await queue.put(info)].  A generator
    waiting in [queue.get()] wakes up. *)
Definition put (it : item) (s : session) : option outcome * session :=
  match pc s with
  | Created => (None, s)
  | AtGet => try_finally (conf s) (loop (match_of id) (queue s ++ [it]) (log s))
  | AtYield | Finished =>
      (None, {| pc := pc s; conf := conf s; queue := queue s ++ [it]; log := log s |})
  end.

(** The awaiting task is cancelled: [CancelledError] is raised at
    [await queue.get()]. *)
Definition cancel (s : session) : option outcome * session :=
  match pc s with
  | AtGet => try_finally (conf s) (BRaise CancelledError, queue s, log s)
  | _ => (None, s)
  end.

(** [aclose()]: [GeneratorExit] is raised at [yield] and swallowed by
    [aclose]; a generator that never started just finishes. *)
Definition aclose (s : session) : option outcome * session :=
  match pc s with
  | Created => (None, {| pc := Finished; conf := conf s; queue := queue s; log := log s |})
  | AtYield => (None, snd (try_finally (conf s) (BRaise GeneratorExit, queue s, log s)))
  | _ => (None, s)
  end.

Inductive action := Anext | Put (it : item) | Cancel | Aclose.

Definition step (a : action) (s : session) : option outcome * session :=
  match a with
  | Anext => anext s
  | Put it => put it s
  | Cancel => cancel s
  | Aclose => aclose s
  end.

Definition yielded (rep : option outcome) : list ServiceRecord :=
  match rep with
  | Some (Item r) => [r]
  | _ => []
  end.

(** The records a consumer receives over a sequence of actions. *)
Fixpoint run (acts : list action) (s : session) : list ServiceRecord * session :=
  match acts with
  | [] => ([], s)
  | a :: acts' =>
      let '(rep, s') := step a s in
      let '(ys, s'') := run acts' s' in
      (yielded rep ++ ys, s'')
  end.

(** [async for res in _discover(...)]: the consumer asks for the next
    record as soon as it has one. *)
Fixpoint consume (fuel : nat) (rep : option outcome) (s : session)
         (got : list ServiceRecord) : option outcome * session * list ServiceRecord :=
  match rep, fuel with
  | Some (Item r), S n => let '(rep', s') := anext s in consume n rep' s' (got ++ [r])
  | _, _ => (rep, s, got)
  end.

Definition pump (p : option outcome * session) : option outcome * session * list ServiceRecord :=
  consume (S (List.length (queue (snd p)))) (fst p) (snd p) [].

End Discover.

(** ** The wrappers [discover_all] and [discover_one] *)

(** [async_timeout.timeout.__aexit__]: the [CancelledError] of a
    cancellation by its own timer leaves the block as [TimeoutError]. *)
Definition timeout_exit (fired : bool) (e : exn) : exn :=
  match e with
  | CancelledError => if fired then TimeoutError else CancelledError
  | _ => e
  end.

(** [with suppress(asyncio.TimeoutError):] *)
Definition suppress (e : exn) : option exn :=
  match e with
  | TimeoutError => None
  | _ => Some e
  end.

(** What happens around a call while it waits: a resolution task delivers
    the result of its fetch, or the timer of [timeout(timeout_v)] fires. *)
Inductive env_event := Arrive (it : item) | Deadline.

Inductive call_status :=
| Running
| Returned (r : ServiceRecord)
| Ended
| Failed (e : exn).

(** A call in progress: its session, the records its [async for] loop has
    received so far, and how it stands. *)
Record call := {
  sess : session;
  received : list ServiceRecord;
  status : call_status
}.

(** The value of [retv] after the loop: the last [res] assigned to it. *)
Definition retv (seen : list ServiceRecord) : option ServiceRecord :=
  match rev seen with
  | [] => None
  | r :: _ => Some r
  end.

Section Wrappers.

Variables (id : option string) (dns_type : string) (timeout_v : option Q).

(** [discover_one]: leaving [async for] and [async with timeout]. *)
Definition one_settle (fired : bool) (prev : list ServiceRecord)
           (res : option outcome * session * list ServiceRecord) : call :=
  let '(rep, s, got) := res in
  let seen := prev ++ got in
  {| sess := s;
     received := seen;
     status :=
       match rep with
       | None | Some (Item _) => Running
       | Some StopAsyncIteration =>
           match retv seen with
           | Some r => Returned r
           | None => Failed UnboundLocalError
           end
       | Some (Error e) => Failed (timeout_exit fired e)
       end |}.

(** [discover_all]: leaving [async for], [async with timeout] and
    [with suppress]; the generator function then ends. *)
Definition all_settle (fired : bool) (prev : list ServiceRecord)
           (res : option outcome * session * list ServiceRecord) : call :=
  let '(rep, s, got) := res in
  {| sess := s;
     received := prev ++ got;
     status :=
       match rep with
       | None | Some (Item _) => Running
       | Some StopAsyncIteration => Ended
       | Some (Error e) =>
           match suppress (timeout_exit fired e) with
           | None => Ended
           | Some e' => Failed e'
           end
       end |}.

Section Driver.

Variables (single : bool)
          (settle : bool -> list ServiceRecord ->
                    option outcome * session * list ServiceRecord -> call).

Definition begin : call :=
  settle false [] (pump id dns_type single (anext id dns_type single fresh)).

Definition on_event (c : call) (ev : env_event) : call :=
  match status c with
  | Running =>
      match ev with
      | Arrive it =>
          settle false (received c)
                 (pump id dns_type single (put id it (sess c)))
      | Deadline =>
          match timeout_v with
          | None => c
          | Some _ =>
              settle true (received c) (pump id dns_type single (cancel (sess c)))
          end
      end
  | _ => c
  end.

Definition drive (tr : list env_event) : call := fold_left on_event tr begin.

End Driver.

(** [async with timeout(timeout_v): async for res in _discover(id, dns_type, True): retv = res] *)
Definition discover_one (tr : list env_event) : call := drive true one_settle tr.

(** [async for res in _discover(id, dns_type, False): yield res], read by
    a consumer that takes every record. *)
Definition discover_all (tr : list env_event) : call := drive false all_settle tr.

End Wrappers.

(** ** The notions the properties are stated with *)

(** The fetch returned [info] and its packed address prints as [addr]. *)
Definition resolved (it : item) (info : ServiceInfo) (addr : string) : Prop :=
  it = Some info /\ inet_ntoa (address info) = inr addr.

(** The record [_discover] builds from [info]. *)
Definition record_of (info : ServiceInfo) (addr : string) : ServiceRecord :=
  {| rec_address := addr; rec_port := port info; rec_identity := serial_of info |}.

(** A resolved record that passes the placeholder test and the filter. *)
Definition matching (id : option string) (it : item) : Prop :=
  exists info addr,
    resolved it info addr /\ addr <> placeholder /\ accepts (match_of id) info = true.

(** A resolved record that the loop passes over. *)
Definition not_matching (id : option string) (it : item) : Prop :=
  exists info addr,
    resolved it info addr /\ (addr = placeholder \/ accepts (match_of id) info = false).

(** The record the loop yields for a dequeued item, if it yields one. *)
Definition yields (m : option string) (it : item) : option ServiceRecord :=
  match handle m it with
  | Emit r _ => Some r
  | _ => None
  end.

(** The record was built by one iteration of the loop on some item. *)
Definition emitted (m : option string) (r : ServiceRecord) : Prop :=
  exists it l, handle m it = Emit r l.

(** A trace on which a call only waits: every fetch delivers a resolved
    record that the loop passes over, and no timer is armed if [Deadline]
    occurs. *)
Definition quiet (id : option string) (timeout_v : option Q) (tr : list env_event) : Prop :=
  Forall (fun ev => match ev with
                    | Arrive it => not_matching id it
                    | Deadline => timeout_v = None
                    end) tr.

(** The subscription is open exactly while the generator is suspended
    inside the [try] block; a waiting generator has an empty queue. *)
Definition wf (dns_type : string) (s : session) : Prop :=
  match pc s with
  | Created => conf s = NoConf /\ queue s = []
  | AtGet => conf s = Listening dns_type /\ queue s = []
  | AtYield => conf s = Listening dns_type
  | Finished => conf s = Closed \/ conf s = NoConf
  end.

(** A call suspended in [queue.get()]. *)
Definition waiting (dns_type : string) (lg : list log_entry) (rcv : list ServiceRecord) : call :=
  {| sess := {| pc := AtGet; conf := Listening dns_type; queue := []; log := lg |};
     received := rcv;
     status := Running |}.

(** A call that is over, its session released. *)
Definition over (lg : list log_entry) (rcv : list ServiceRecord) (st : call_status) : call :=
  {| sess := {| pc := Finished; conf := Closed; queue := []; log := lg |};
     received := rcv;
     status := st |}.

(** The exceptions one iteration of the loop can raise. *)
Definition loop_errors : list exn := [AttributeError; TypeError; OSError].

(** The shapes a call of [discover_one] goes through. *)
Inductive one_reach (id : option string) (dns_type : string) : call -> Prop :=
| one_waiting lg : one_reach id dns_type (waiting dns_type lg [])
| one_returned lg r :
    emitted (match_of id) r -> one_reach id dns_type (over lg [r] (Returned r))
| one_failed lg e :
    In e (TimeoutError :: loop_errors) -> one_reach id dns_type (over lg [] (Failed e)).

(** The shapes a call of [discover_all] goes through. *)
Inductive all_reach (id : option string) (dns_type : string) : call -> Prop :=
| all_waiting lg rcv :
    Forall (emitted (match_of id)) rcv -> all_reach id dns_type (waiting dns_type lg rcv)
| all_ended lg rcv :
    Forall (emitted (match_of id)) rcv -> all_reach id dns_type (over lg rcv Ended)
| all_failed lg rcv e :
    Forall (emitted (match_of id)) rcv -> In e loop_errors ->
    all_reach id dns_type (over lg rcv (Failed e)).

(** Sample devices. *)
Definition lan_ip : list byte := [xc0; xa8; x01; x0a].
Definition zero_ip : list byte := [x00; x00; x00; x00].
Definition device (srv : string) (packed : list byte) : ServiceInfo :=
  {| name := (srv ++ "_brewblox._tcp.local.")%string;
     server := srv; address := Some packed; port := 8332 |}.

(** ** Reading a trace of fetch results *)

(** The records the loop yields for the items it dequeues, in order. *)
Definition emits (m : option string) (items : list item) : list ServiceRecord :=
  flat_map (fun it => match yields m it with Some r => [r] | None => [] end) items.

(** The lines one iteration of the loop writes to the log. *)
Definition logs (m : option string) (it : item) : list log_entry :=
  match handle m it with
  | Emit _ l => [l]
  | Discard l => [l]
  | Skip | Raise _ => []
  end.

(** The exception of the first item on which the loop raises. *)
Fixpoint first_error (m : option string) (items : list item) : option exn :=
  match items with
  | [] => None
  | it :: rest =>
      match handle m it with
      | Raise e => Some e
      | _ => first_error m rest
      end
  end.

(** The items in front of that one. *)
Fixpoint before_error (m : option string) (items : list item) : list item :=
  match items with
  | [] => []
  | it :: rest =>
      match handle m it with
      | Raise _ => []
      | _ => it :: before_error m rest
      end
  end.

(** The fetch results among a consumer's actions on a session. *)
Definition puts (acts : list action) : list item :=
  flat_map (fun a => match a with Put it => [it] | _ => [] end) acts.

(** A call of [discover_one] beside a call of [discover_all] on the same
    events: both wait, or the first has returned the record the second
    received first, or the first has failed and the second is over with
    nothing received. *)
Inductive one_all (id : option string) (dns_type : string) : call -> call -> Prop :=
| oa_waiting lg :
    one_all id dns_type (waiting dns_type lg []) (waiting dns_type lg [])
| oa_returned lg r c more :
    all_reach id dns_type c -> received c = r :: more ->
    one_all id dns_type (over lg [r] (Returned r)) c
| oa_failed lg e c :
    status c <> Running -> received c = [] ->
    one_all id dns_type (over lg [] (Failed e)) c.

(** What a live generator still has in its queue. *)
Definition pending (s : session) : list item :=
  match pc s with
  | AtGet | AtYield => queue s
  | Created | Finished => []
  end.

(** ** The HTTP handlers [post_discover] and [post_discover_all] *)

(** A key of the validated request data: not there, there with [None]
    (the schema has [allow_none=True]), or there with a value. *)
Inductive field (A : Type) :=
| Missing
| Null
| Value (a : A).

Arguments Missing {A}.
Arguments Null {A}.
Arguments Value {A} a.

(** [request['data']], loaded by [DiscoveryRequestSchema]. *)
Record request := {
  req_id : field string;
  req_dns_type : field string;
  req_timeout : field Q
}.

(** [data.get(key)] *)
Definition dict_get {A : Type} (f : field A) : option A :=
  match f with
  | Value a => Some a
  | Missing | Null => None
  end.

(** [data.get(key, default)]: the default stands in for a missing key only. *)
Definition dict_get_default {A : Type} (f : field A) (d : A) : option A :=
  match f with
  | Missing => Some d
  | Null => None
  | Value a => Some a
  end.

(** [{'host': host, 'port': port, 'id': id}] *)
Record device_json := {
  host : string;
  jport : Z;
  jid : string
}.

(** [host, port, id = res] *)
Definition to_json (r : ServiceRecord) : device_json :=
  {| host := rec_address r; jport := rec_port r; jid := rec_identity r |}.

(** What the client of a handler has at some point: nothing yet, the
    [web.json_response] with its body, or the exception the handler raised. *)
Inductive reply (A : Type) :=
| Pending
| Response (body : A)
| Fault (e : exn).

Arguments Pending {A}.
Arguments Response {A} body.
Arguments Fault {A} e.

Section Browser.

(** What [ServiceBrowser(conf, dns_type, ...)] on line 40 raises for the
    service type it is given, if it refuses it.  The check is code of
    aiozeroconf; the exception leaves [_discover] through [finally]. *)
Variable browser_refuses : option string -> option exn.


End Browser.

(** [post_discover_all]: [retv] is answered when the sequence has ended. *)
Definition post_discover_all (data : request) (tr : list env_event)
  : option (reply (list device_json)) :=
  match dict_get_default (req_dns_type data) BREWBLOX_DNS_TYPE with
  | None => None
  | Some dns_type =>
      let c := discover_all (dict_get (req_id data)) dns_type
                            (dict_get_default (req_timeout data) DEFAULT_TIMEOUT_S) tr in
      Some match status c with
           | Ended => Response (map to_json (received c))
           | Failed e => Fault e
           | Running | Returned _ => Pending
           end
  end.

(** ** Regular expressions, as far as [print_usb] uses them

    The fragment of Python's [re] that the pattern of [print_usb] is written
    in, matched the way [re] matches: by backtracking, the left alternative
    first, a repetition as long as it can be.  The flag [re.IGNORECASE] is
    built in, on ASCII text; [re.MULTILINE] only changes [^] and [$], which
    the fragment does not have. *)

Module Re.

Inductive re :=
| Lit (w : string)                          (* literal characters *)
| Cls (ranges : list (ascii * ascii))       (* [a-z0-9] *)
| Plus (ranges : list (ascii * ascii))      (* [a-z0-9]+ *)
| Cat (a b : re)
| Alt (a b : re)                            (* a|b *)
| Group (name : string) (a : re).           (* (?P<name>a) *)

(** The named groups matched so far, the latest first. *)
Definition captures := list (string * string).

Definition upper_ascii (c : ascii) : ascii :=
  let n := nat_of_ascii c in
  if ((97 <=? n) && (n <=? 122))%nat then ascii_of_nat (n - 32) else c.

Definition eq_ci (a b : ascii) : bool :=
  Ascii.eqb (Str.lower_ascii a) (Str.lower_ascii b).

Definition in_ranges (ranges : list (ascii * ascii)) (c : ascii) : bool :=
  existsb (fun r => (nat_of_ascii (fst r) <=? nat_of_ascii c)%nat
                    && (nat_of_ascii c <=? nat_of_ascii (snd r))%nat) ranges.

(** A class under [IGNORECASE]: either case of the character is in it. *)
Definition in_class (ranges : list (ascii * ascii)) (c : ascii) : bool :=
  in_ranges ranges (Str.lower_ascii c) || in_ranges ranges (upper_ascii c).

(** [s] without its beginning [w], compared without regard to case. *)
Fixpoint strip_ci (w s : string) : option string :=
  match w, s with
  | EmptyString, _ => Some s
  | String a w', String b s' => if eq_ci a b then strip_ci w' s' else None
  | String _ _, EmptyString => None
  end.

Section Exec.

Variable R : Type.

(** [[...]+] at the head of [s]: the longest run first, then shorter
    ones, until the continuation accepts. *)
Fixpoint plus_cls (ranges : list (ascii * ascii)) (s : string)
         (k : string -> option R) : option R :=
  match s with
  | EmptyString => None
  | String c s' =>
      if in_class ranges c then
        match plus_cls ranges s' k with
        | Some x => Some x
        | None => k s'
        end
      else None
  end.

(** Match [r] at the head of [s]; the continuation gets what is left of
    [s] and the groups, and may refuse, which makes the matcher backtrack. *)
Fixpoint exec (r : re) (s : string) (caps : captures)
         (k : string -> captures -> option R) : option R :=
  match r with
  | Lit w =>
      match strip_ci w s with
      | Some s' => k s' caps
      | None => None
      end
  | Cls ranges =>
      match s with
      | String c s' => if in_class ranges c then k s' caps else None
      | EmptyString => None
      end
  | Plus ranges => plus_cls ranges s (fun s' => k s' caps)
  | Cat a b => exec a s caps (fun s' caps' => exec b s' caps' k)
  | Alt a b =>
      match exec a s caps k with
      | Some x => Some x
      | None => exec b s caps k
      end
  | Group name a =>
      exec a s caps
           (fun s' caps' =>
              k s' ((name, substring 0 (String.length s - String.length s') s) :: caps'))
  end.

End Exec.

(** A match at the head of [s]: how much of [s] is left, and the groups. *)
Definition match_at (r : re) (s : string) : option (nat * captures) :=
  exec (nat * captures) r s [] (fun rest caps => Some (String.length rest, caps)).

(** [re.finditer(r, s)], the groups of each match; [skip] characters at
    the head of [s] belong to the match before. *)
Fixpoint finditer (r : re) (skip : nat) (s : string) : list captures :=
  match skip, s with
  | S n, String _ s' => finditer r n s'
  | S _, EmptyString => []
  | O, EmptyString =>
      match match_at r s with
      | Some (_, caps) => [caps]
      | None => []
      end
  | O, String _ s' =>
      match match_at r s with
      | Some (remain, caps) => caps :: finditer r (String.length s - remain - 1) s'
      | None => finditer r 0 s'
      end
  end.

(** [obj.group(name)] *)
Fixpoint group (name : string) (caps : captures) : string :=
  match caps with
  | [] => EmptyString
  | (n, v) :: rest => if String.eqb n name then v else group name rest
  end.

End Re.

(** ** The command line: [print_usb], [print_wifi] and [cli] *)

Definition newline : ascii := ascii_of_nat 10.

(** [sep.join(l)] *)
Fixpoint join (sep : string) (l : list string) : string :=
  match l with
  | [] => EmptyString
  | [x] => x
  | x :: rest => (x ++ sep ++ join sep rest)%string
  end.

(** [r'particle_(?P<model>p1|photon)_(?P<serial>[a-z0-9]+)-'] *)
Definition alnum : list (ascii * ascii) := [("a"%char, "z"%char); ("0"%char, "9"%char)].

Definition usb_pattern : Re.re :=
  Re.Cat (Re.Lit "particle_")
    (Re.Cat (Re.Group "model" (Re.Alt (Re.Lit "p1") (Re.Lit "photon")))
       (Re.Cat (Re.Lit "_")
          (Re.Cat (Re.Group "serial" (Re.Plus alnum))
             (Re.Lit "-")))).

(** [str(n)] for an [int]. *)
Definition str_int (n : Z) : string := NilZero.string_of_int (Z.to_int n).

(** [print(a, b, c)]: the line written, without its end. *)
Definition print_line (args : list string) : string := join " " args.

(** The serial and model of each match over the joined [glob] result. *)
Definition usb_devices (paths : list string) : list (string * string) :=
  map (fun caps => (Re.group "serial" caps, Re.group "model" caps))
      (Re.finditer usb_pattern 0 (join (String newline EmptyString) paths)).

(** [print_usb], given what [glob('/dev/serial/by-id/*')] returns. *)
Definition print_usb (paths : list string) : list string :=
  map (fun d => print_line ["usb"; fst d; snd d]) (usb_devices paths).

Definition wifi_line (r : ServiceRecord) : string :=
  print_line ["wifi"; rec_identity r; rec_address r; str_int (rec_port r)].

(** [print_wifi]: the lines written so far and how the coroutine stands. *)
Definition print_wifi (tr : list env_event) : list string * call_status :=
  let c := discover_all None BREWBLOX_DNS_TYPE (Some DEFAULT_TIMEOUT_S) tr in
  (map wifi_line (received c), status c).

(** The values of [--discovery]. *)
Inductive discovery_choice := ChoiceAll | ChoiceUsb | ChoiceWifi.

(** [cli]: the lines written, and [Ended] when it has returned. *)
Definition cli (discovery : discovery_choice) (paths : list string) (tr : list env_event)
  : list string * call_status :=
  let usb :=
    match discovery with
    | ChoiceAll | ChoiceUsb => print_usb paths
    | ChoiceWifi => []
    end in
  match discovery with
  | ChoiceAll | ChoiceWifi => (usb ++ fst (print_wifi tr), snd (print_wifi tr))
  | ChoiceUsb => (usb, Ended)
  end.

(** Every character of [s] passes [p]. *)
Fixpoint string_forallb (p : ascii -> bool) (s : string) : bool :=
  match s with
  | EmptyString => true
  | String c s' => p c && string_forallb p s'
  end.

(** An ASCII letter or digit. *)
Definition is_alnum (c : ascii) : bool :=
  let n := nat_of_ascii c in
  ((48 <=? n) && (n <=? 57) || (65 <=? n) && (n <=? 90) || (97 <=? n) && (n <=? 122))%nat.

(** No part of [r] can match the character [c]. *)
Fixpoint avoids (c : ascii) (r : Re.re) : bool :=
  match r with
  | Re.Lit w => string_forallb (fun a => negb (Re.eq_ci a c)) w
  | Re.Cls ranges | Re.Plus ranges => negb (Re.in_class ranges c)
  | Re.Cat a b | Re.Alt a b => avoids c a && avoids c b
  | Re.Group _ a => avoids c a
  end.


(** * Facts *)

(** ** Strings: lower-casing and slicing *)

Module StrFacts.
Import Str.

Lemma length_app (a b : string) :
  String.length (a ++ b)%string = String.length a + String.length b.
Proof. induction a as [|c a IH]; simpl; [reflexivity | now rewrite IH]. Qed.

Lemma lower_app (a b : string) : lower (a ++ b)%string = (lower a ++ lower b)%string.
Proof. induction a as [|c a IH]; simpl; [reflexivity | now rewrite IH]. Qed.

Lemma lower_length (a : string) : String.length (lower a) = String.length a.
Proof. induction a as [|c a IH]; simpl; [reflexivity | now rewrite IH]. Qed.

Lemma lower_substring (n k : nat) (a : string) :
  lower (substring n k a) = substring n k (lower a).
Proof.
  revert n k; induction a as [|c a IH]; intros [|n] [|k]; simpl; trivial.
  now rewrite IH.
Qed.

Lemma lower_drop_last (n : nat) (a : string) :
  lower (drop_last n a) = drop_last n (lower a).
Proof. unfold drop_last. now rewrite lower_substring, lower_length. Qed.

Lemma substring_prefix (a b : string) :
  substring 0 (String.length a) (a ++ b)%string = a.
Proof.
  induction a as [|c a IH]; simpl.
  - now destruct b.
  - now rewrite IH.
Qed.

Lemma drop_last_app (a b : string) : drop_last (String.length b) (a ++ b)%string = a.
Proof.
  unfold drop_last. rewrite length_app.
  replace (String.length a + String.length b - String.length b) with (String.length a) by lia.
  apply substring_prefix.
Qed.

Lemma app_cancel_r (a b t : string) : (a ++ t)%string = (b ++ t)%string -> a = b.
Proof.
  revert b; induction a as [|c a IH]; intros [|d b] H; simpl in H.
  - reflexivity.
  - apply (f_equal String.length) in H; simpl in H; rewrite length_app in H; lia.
  - apply (f_equal String.length) in H; simpl in H; rewrite length_app in H; lia.
  - injection H as -> H. f_equal. now apply IH.
Qed.

Lemma lower_suffix : lower local_suffix = local_suffix.
Proof. reflexivity. Qed.

(** A name that ends in the suffix, in any letter case, loses exactly the
    suffix. *)
Lemma drop_suffix (h sfx : string) :
  lower sfx = local_suffix -> drop_last (String.length local_suffix) (h ++ sfx)%string = h.
Proof.
  intros H. rewrite <- H, lower_length. apply drop_last_app.
Qed.

End StrFacts.

(** ** [inet_ntoa] *)

Lemma decimal_head (b : byte) (rest rest' : string) :
  (decimal b ++ "." ++ rest)%string = ("0." ++ rest')%string -> b = x00 /\ rest = rest'.
Proof.
  destruct b; cbn; intros H; try discriminate H.
  injection H as ->. now split.
Qed.

Lemma decimal_last (b : byte) : decimal b = "0" -> b = x00.
Proof. destruct b; cbn; intros H; try discriminate H. reflexivity. Qed.

Lemma inet_ntoa_placeholder (packed : option (list byte)) :
  inet_ntoa packed = inr placeholder <-> packed = Some [x00; x00; x00; x00].
Proof.
  split; [|now intros ->].
  destruct packed as [[|a [|b [|c [|d [|e l]]]]]|]; simpl; try discriminate.
  intros H; injection H as H. unfold placeholder in H.
  apply (decimal_head a _ "0.0.0") in H. destruct H as [-> H].
  apply (decimal_head b _ "0.0") in H. destruct H as [-> H].
  apply (decimal_head c _ "0") in H. destruct H as [-> H].
  apply decimal_last in H. now subst.
Qed.

(** ** One iteration of the loop *)

Lemma handle_resolved m it info addr :
  resolved it info addr ->
  handle m it =
    if String.eqb addr placeholder then Skip
    else if accepts m info
         then Emit (record_of info addr) (Discovered (serial_of info) addr (port info))
         else Discard (Discarding (name info) addr (port info)).
Proof. intros [-> H]. unfold handle. now rewrite H. Qed.

Lemma handle_emit_inv m it r l :
  handle m it = Emit r l ->
  exists info addr,
    resolved it info addr /\ addr <> placeholder /\ accepts m info = true /\
    r = record_of info addr.
Proof.
  unfold handle. destruct it as [info|]; [|discriminate].
  destruct (inet_ntoa (address info)) as [e|addr] eqn:Ha; [discriminate|].
  destruct (String.eqb addr placeholder) eqn:Hp; [discriminate|].
  destruct (accepts m info) eqn:Hacc; [|discriminate].
  intros H; injection H as <- _.
  exists info, addr. repeat split; trivial.
  now apply String.eqb_neq.
Qed.

Lemma handle_raise_inv m it e : handle m it = Raise e -> In e loop_errors.
Proof.
  unfold handle, loop_errors. destruct it as [info|].
  - destruct (address info) as [[|a [|b [|c [|d [|x l]]]]]|]; simpl;
      try (intros H; injection H as <-; simpl; tauto).
    destruct (String.eqb _ placeholder); [discriminate|].
    destruct (accepts m info); discriminate.
  - intros H; injection H as <-; simpl; tauto.
Qed.

Lemma handle_matching id it info addr :
  resolved it info addr -> addr <> placeholder -> accepts (match_of id) info = true ->
  handle (match_of id) it =
    Emit (record_of info addr) (Discovered (serial_of info) addr (port info)).
Proof.
  intros Hr Hp Hacc. rewrite (handle_resolved _ _ _ _ Hr).
  apply String.eqb_neq in Hp. now rewrite Hp, Hacc.
Qed.

Lemma handle_not_matching id it :
  not_matching id it ->
  handle (match_of id) it = Skip \/ exists l, handle (match_of id) it = Discard l.
Proof.
  intros (info & addr & Hr & H). rewrite (handle_resolved _ _ _ _ Hr).
  destruct (String.eqb addr placeholder) eqn:Hp; [now left|].
  destruct H as [->|H]; [now rewrite String.eqb_refl in Hp|].
  rewrite H. right; eauto.
Qed.

Lemma emitted_not_placeholder m r : emitted m r -> rec_address r <> placeholder.
Proof.
  intros (it & l & H). apply handle_emit_inv in H.
  destruct H as (info & addr & _ & Hp & _ & ->). exact Hp.
Qed.

(** [accepts] in terms of the identities. *)
Lemma accepts_nonempty (s : string) (info : ServiceInfo) :
  s <> EmptyString ->
  accepts (match_of (Some s)) info = true <->
  Str.lower (server info) = (Str.lower s ++ local_suffix)%string.
Proof.
  intros Hs. destruct s as [|c s]; [congruence|].
  unfold match_of, accepts. rewrite String.eqb_eq, StrFacts.lower_app.
  now rewrite StrFacts.lower_suffix.
Qed.

Lemma accepted_identity (s : string) (info : ServiceInfo) :
  Str.lower (server info) = (Str.lower s ++ local_suffix)%string ->
  Str.lower (serial_of info) = Str.lower s.
Proof.
  intros H. unfold serial_of. rewrite StrFacts.lower_drop_last, H.
  apply StrFacts.drop_last_app.
Qed.

(** ** The loop *)

Lemma loop_yield m q lg r q' lg' :
  loop m q lg = (BYield r, q', lg') ->
  (exists it l, In it q /\ handle m it = Emit r l) /\ List.length q' < List.length q.
Proof.
  revert lg; induction q as [|it q IH]; intros lg; simpl; [discriminate|].
  destruct (handle m it) as [r0 l0| |l0|e] eqn:Hh; intros H.
  - injection H as <- <- <-. split; [|lia]. exists it, l0. auto.
  - destruct (IH _ H) as [(it' & l & Hin & Hit) Hlen]. split; [|lia]. exists it', l. auto.
  - destruct (IH _ H) as [(it' & l & Hin & Hit) Hlen]. split; [|lia]. exists it', l. auto.
  - discriminate.
Qed.

Lemma loop_await m q lg q' lg' : loop m q lg = (BAwait, q', lg') -> q' = [].
Proof.
  revert lg; induction q as [|it q IH]; intros lg; simpl.
  - now intros H; injection H as <- _.
  - destruct (handle m it); try discriminate; apply IH.
Qed.

(** ** Sessions *)

Section SessionFacts.

Variables (id : option string) (dns_type : string) (single : bool).

Local Abbreviation step := (step id dns_type single).
Local Abbreviation run := (run id dns_type single).

Lemma loop_wf q lg :
  wf dns_type (snd (try_finally (Listening dns_type) (loop (match_of id) q lg))).
Proof.
  destruct (loop (match_of id) q lg) as [[b q0] lg0] eqn:E.
  destruct b; unfold wf; simpl; auto.
  split; [reflexivity|]. now apply loop_await in E.
Qed.

Lemma step_wf a s : wf dns_type s -> wf dns_type (snd (step a s)).
Proof.
  intros Hwf. destruct s as [p c q lg]. unfold wf in Hwf; simpl in Hwf.
  destruct a as [|it| |]; destruct p; cbn -[loop try_finally];
    try exact Hwf; try (unfold wf; simpl; tauto).
  - destruct single.
    + unfold wf; simpl; auto.
    + rewrite Hwf. apply loop_wf.
  - destruct Hwf as [-> ->]. apply loop_wf.
Qed.

Lemma step_started a s : conf s <> NoConf -> conf (snd (step a s)) <> NoConf.
Proof.
  intros Hc. destruct s as [p c q lg]; simpl in Hc.
  destruct a as [|it| |]; destruct p; cbn -[loop]; try exact Hc; try discriminate.
  - destruct single; cbn -[loop]; [discriminate|].
    destruct (loop (match_of id) q lg) as [[b q0] lg0]; destruct b; simpl;
      trivial; discriminate.
  - destruct (loop (match_of id) (q ++ [it]) lg) as [[b q0] lg0]; destruct b; simpl;
      trivial; discriminate.
Qed.

Lemma run_cons a acts s :
  run (a :: acts) s =
  (yielded (fst (step a s)) ++ fst (run acts (snd (step a s))),
   snd (run acts (snd (step a s)))).
Proof.
  simpl. destruct (step a s) as [rep s']; simpl.
  now destruct (run acts s').
Qed.

Lemma run_wf acts s : wf dns_type s -> wf dns_type (snd (run acts s)).
Proof.
  revert s; induction acts as [|a acts IH]; intros s Hs; [exact Hs|].
  rewrite run_cons; simpl. apply IH. now apply step_wf.
Qed.

Lemma run_started acts s : conf s <> NoConf -> conf (snd (run acts s)) <> NoConf.
Proof.
  revert s; induction acts as [|a acts IH]; intros s Hs; [exact Hs|].
  rewrite run_cons; simpl. apply IH. now apply step_started.
Qed.

(** Every record the generator hands out was emitted by one iteration of
    the loop on some dequeued item. *)
Lemma step_item a s r :
  fst (step a s) = Some (Item r) -> emitted (match_of id) r.
Proof.
  destruct s as [p c q lg].
  destruct a as [|it| |]; destruct p; cbn -[loop]; try discriminate.
  - destruct single; cbn -[loop]; [discriminate|].
    destruct (loop (match_of id) q lg) as [[b q0] lg0] eqn:E.
    destruct b; cbn; try discriminate.
    intros H; injection H as <-. apply loop_yield in E.
    destruct E as [(it & l & _ & Hit) _]. now exists it, l.
  - destruct (loop (match_of id) (q ++ [it]) lg) as [[b q0] lg0] eqn:E.
    destruct b; cbn; try discriminate.
    intros H; injection H as <-. apply loop_yield in E.
    destruct E as [(it' & l & _ & Hit) _]. now exists it', l.
Qed.

Lemma anext_item_shrinks s r s' :
  anext id dns_type single s = (Some (Item r), s') ->
  List.length (queue s') < List.length (queue s).
Proof.
  destruct s as [p c q lg]. destruct p; cbn -[loop]; try discriminate.
  destruct single; cbn -[loop]; [discriminate|].
  destruct (loop (match_of id) q lg) as [[b q0] lg0] eqn:E.
  destruct b; cbn; try discriminate.
  intros H; injection H as <- <-. now apply loop_yield in E.
Qed.

(** A finished generator stays finished, keeps its [conf] and hands out
    nothing. *)
Lemma step_finished a s :
  pc s = Finished ->
  yielded (fst (step a s)) = [] /\ pc (snd (step a s)) = Finished /\
  conf (snd (step a s)) = conf s.
Proof.
  destruct s as [p c q lg]; simpl; intros ->. destruct a; cbn; auto.
Qed.

Lemma run_finished acts s :
  pc s = Finished ->
  fst (run acts s) = [] /\ pc (snd (run acts s)) = Finished /\
  conf (snd (run acts s)) = conf s.
Proof.
  revert s; induction acts as [|a acts IH]; intros s Hs; [auto|].
  rewrite run_cons; simpl.
  destruct (step_finished a s Hs) as (Hy & Hp & Hc).
  destruct (IH _ Hp) as (Hy' & Hp' & Hc').
  rewrite Hy, Hy'. repeat split; congruence.
Qed.

Lemma run_emitted acts s : Forall (emitted (match_of id)) (fst (run acts s)).
Proof.
  revert s; induction acts as [|a acts IH]; intros s; [constructor|].
  rewrite run_cons; simpl. apply Forall_app; split; [|apply IH].
  destruct (fst (step a s)) as [[r| |e]|] eqn:E; simpl; constructor; [|constructor].
  now apply (step_item a s).
Qed.

(** The fuel of [pump] is enough: the consumer never stops with a record
    in hand and the generator ready to go on. *)
Lemma consume_settles fuel rep s got r :
  List.length (queue s) < fuel ->
  fst (fst (consume id dns_type single fuel rep s got)) <> Some (Item r).
Proof.
  revert rep s got; induction fuel as [|n IH]; intros rep s got Hlen; [lia|].
  destruct rep as [[r0| |e]|]; simpl; try discriminate.
  destruct (anext id dns_type single s) as [rep' s'] eqn:E.
  destruct rep' as [[r1| |e]|].
  - apply IH. apply anext_item_shrinks in E. lia.
  - destruct n; simpl; discriminate.
  - destruct n; simpl; discriminate.
  - destruct n; simpl; discriminate.
Qed.

Lemma pump_settles p r : fst (fst (pump id dns_type single p)) <> Some (Item r).
Proof. unfold pump. apply consume_settles. lia. Qed.

End SessionFacts.

(** ** Calls *)

Lemma retv_snoc l r : retv (l ++ [r]) = Some r.
Proof. unfold retv. now rewrite rev_unit. Qed.

Section CallFacts.

Variables (id : option string) (dns_type : string) (timeout_v : option Q).

Local Abbreviation one := (on_event id dns_type timeout_v true one_settle).
Local Abbreviation all := (on_event id dns_type timeout_v false all_settle).

Lemma one_arrive lg rcv it :
  one (waiting dns_type lg rcv) (Arrive it) =
  match handle (match_of id) it with
  | Skip => waiting dns_type lg rcv
  | Discard l => waiting dns_type (lg ++ [l]) rcv
  | Raise e => over lg rcv (Failed (timeout_exit false e))
  | Emit r l => over (lg ++ [l]) (rcv ++ [r]) (Returned r)
  end.
Proof.
  unfold on_event, waiting, over; cbn -[handle].
  destruct (handle (match_of id) it) as [r l| |l|e]; cbn; try now rewrite app_nil_r.
  now rewrite retv_snoc.
Qed.

Lemma all_arrive lg rcv it :
  all (waiting dns_type lg rcv) (Arrive it) =
  match handle (match_of id) it with
  | Skip => waiting dns_type lg rcv
  | Discard l => waiting dns_type (lg ++ [l]) rcv
  | Raise e =>
      over lg rcv (match suppress (timeout_exit false e) with
                   | None => Ended
                   | Some e' => Failed e'
                   end)
  | Emit r l => waiting dns_type (lg ++ [l]) (rcv ++ [r])
  end.
Proof.
  unfold on_event, waiting, over; cbn -[handle].
  destruct (handle (match_of id) it) as [r l| |l|e]; cbn; try now rewrite app_nil_r.
  reflexivity.
Qed.

Lemma one_deadline lg rcv :
  one (waiting dns_type lg rcv) Deadline =
  match timeout_v with
  | None => waiting dns_type lg rcv
  | Some _ => over lg rcv (Failed TimeoutError)
  end.
Proof.
  unfold on_event, waiting, over; cbn. destruct timeout_v; cbn; trivial.
  now rewrite app_nil_r.
Qed.

Lemma all_deadline lg rcv :
  all (waiting dns_type lg rcv) Deadline =
  match timeout_v with
  | None => waiting dns_type lg rcv
  | Some _ => over lg rcv Ended
  end.
Proof.
  unfold on_event, waiting, over; cbn. destruct timeout_v; cbn; trivial.
  now rewrite app_nil_r.
Qed.

Lemma one_unarmed lg rcv :
  timeout_v = None -> one (waiting dns_type lg rcv) Deadline = waiting dns_type lg rcv.
Proof. intros H. rewrite one_deadline. now rewrite H. Qed.

Lemma all_unarmed lg rcv :
  timeout_v = None -> all (waiting dns_type lg rcv) Deadline = waiting dns_type lg rcv.
Proof. intros H. rewrite all_deadline. now rewrite H. Qed.

(** Once a call is over nothing that happens changes it. *)
Lemma settled_stays single settle c tr :
  status c <> Running ->
  fold_left (on_event id dns_type timeout_v single settle) tr c = c.
Proof.
  intros H. induction tr as [|ev tr IH]; [reflexivity|]. simpl.
  replace (on_event id dns_type timeout_v single settle c ev) with c; [exact IH|].
  unfold on_event. destruct (status c); congruence.
Qed.

Lemma loop_error_exit e : In e loop_errors -> timeout_exit false e = e /\ suppress e = Some e.
Proof. unfold loop_errors; simpl. intros [<-|[<-|[<-|[]]]]; auto. Qed.

Lemma one_reach_step c ev : one_reach id dns_type c -> one_reach id dns_type (one c ev).
Proof.
  intros [lg|lg r Hr|lg e He].
  - destruct ev as [it|].
    + rewrite one_arrive. destruct (handle (match_of id) it) as [r l| |l|e] eqn:Hh.
      * apply one_returned. now exists it, l.
      * constructor.
      * constructor.
      * apply handle_raise_inv in Hh. destruct (loop_error_exit e Hh) as [-> _].
        apply one_failed. now right.
    + rewrite one_deadline. destruct timeout_v; [|constructor].
      apply one_failed. now left.
  - now constructor.
  - now constructor.
Qed.

Lemma all_reach_step c ev : all_reach id dns_type c -> all_reach id dns_type (all c ev).
Proof.
  intros [lg rcv Hr|lg rcv Hr|lg rcv e Hr He].
  - destruct ev as [it|].
    + rewrite all_arrive. destruct (handle (match_of id) it) as [r l| |l|e] eqn:Hh.
      * apply all_waiting. apply Forall_app; split; [exact Hr|].
        constructor; [|constructor]. now exists it, l.
      * now constructor.
      * now constructor.
      * apply handle_raise_inv in Hh. destruct (loop_error_exit e Hh) as [-> ->].
        now apply all_failed.
    + rewrite all_deadline. destruct timeout_v; now constructor.
  - now constructor.
  - now constructor.
Qed.

Lemma one_reach_fold tr c :
  one_reach id dns_type c -> one_reach id dns_type (fold_left one tr c).
Proof.
  revert c; induction tr as [|ev tr IH]; intros c Hc; [exact Hc|].
  simpl. apply IH. now apply one_reach_step.
Qed.

Lemma all_reach_fold tr c :
  all_reach id dns_type c -> all_reach id dns_type (fold_left all tr c).
Proof.
  revert c; induction tr as [|ev tr IH]; intros c Hc; [exact Hc|].
  simpl. apply IH. now apply all_reach_step.
Qed.

Lemma discover_one_reach tr : one_reach id dns_type (discover_one id dns_type timeout_v tr).
Proof. apply one_reach_fold. apply (one_waiting id dns_type []). Qed.

Lemma discover_all_reach tr : all_reach id dns_type (discover_all id dns_type timeout_v tr).
Proof. apply all_reach_fold. apply (all_waiting id dns_type [] []). constructor. Qed.

(** On a quiet trace a call keeps waiting and receives nothing. *)
Lemma one_quiet tr lg rcv :
  quiet id timeout_v tr ->
  exists lg', fold_left one tr (waiting dns_type lg rcv) = waiting dns_type lg' rcv.
Proof.
  intros H; revert lg; induction H as [|ev tr Hev _ IH]; intros lg; [now exists lg|].
  simpl. destruct ev as [it|].
  - rewrite one_arrive. destruct (handle_not_matching id it Hev) as [->|[l ->]]; apply IH.
  - rewrite (one_unarmed _ _ Hev). apply IH.
Qed.

Lemma all_quiet tr lg rcv :
  quiet id timeout_v tr ->
  exists lg', fold_left all tr (waiting dns_type lg rcv) = waiting dns_type lg' rcv.
Proof.
  intros H; revert lg; induction H as [|ev tr Hev _ IH]; intros lg; [now exists lg|].
  simpl. destruct ev as [it|].
  - rewrite all_arrive. destruct (handle_not_matching id it Hev) as [->|[l ->]]; apply IH.
  - rewrite (all_unarmed _ _ Hev). apply IH.
Qed.

End CallFacts.

Lemma quiet_arrivals id timeout_v items :
  Forall (not_matching id) items -> quiet id timeout_v (map Arrive items).
Proof.
  unfold quiet. induction 1; simpl; constructor; auto.
Qed.

Lemma yields_resolved m info addr :
  inet_ntoa (address info) = inr addr -> addr <> placeholder ->
  yields m (Some info) = if accepts m info then Some (record_of info addr) else None.
Proof.
  intros Ha Hp. unfold yields.
  rewrite (handle_resolved m (Some info) info addr (conj eq_refl Ha)).
  apply String.eqb_neq in Hp. rewrite Hp. now destruct (accepts m info).
Qed.

(** * The claims *)

(** C1, as stated, fails in three places.  A record whose address is
    0.0.0.0 is not yielded although no filter identity is given.  A record
    whose server name does not end in the domain suffix is not yielded
    although the identity derived from it equals the filter identity.  With
    the empty string as filter identity a record of another identity is
    yielded. *)
Lemma C1_counterexample :
  yields (match_of None) (Some (device "abc.local." zero_ip)) = None
  /\ (Str.lower (serial_of (device "abc1234567" lan_ip)) = Str.lower "abc"
      /\ yields (match_of (Some "abc")) (Some (device "abc1234567" lan_ip)) = None)
  /\ (yields (match_of (Some "")) (Some (device "abc.local." lan_ip))
        = Some {| rec_address := "192.168.1.10"; rec_port := 8332; rec_identity := "abc" |}
      /\ Str.lower "abc" <> Str.lower "").
Proof. repeat split; try reflexivity. discriminate. Qed.

(** C1, amended: for every resolved record dequeued by a session whose
    address is not 0.0.0.0: if the filter identity is absent or empty the
    record is yielded; if a non-empty identity of ASCII characters is given
    and the record's server name is of ASCII characters, the record is
    yielded if and only if its server name equals the identity followed by
    the domain suffix, compared case-insensitively, and otherwise nothing is
    yielded; a yielded record's identity equals the filter identity
    case-insensitively; and for a server name that ends in the domain suffix
    the record is yielded if and only if its identity equals the filter
    identity case-insensitively (the whole identity, no prefix or
    substring). *)
Theorem C1_filter_rule (id : option string) (info : ServiceInfo) (addr : string) :
  inet_ntoa (address info) = inr addr -> addr <> placeholder ->
  ((id = None \/ id = Some EmptyString) ->
     yields (match_of id) (Some info) = Some (record_of info addr))
  /\ (forall s, id = Some s -> s <> EmptyString ->
        Str.is_ascii s = true -> Str.is_ascii (server info) = true ->
        (yields (match_of id) (Some info) = Some (record_of info addr) <->
           Str.lower (server info) = (Str.lower s ++ local_suffix)%string)
        /\ (yields (match_of id) (Some info) = None <->
              Str.lower (server info) <> (Str.lower s ++ local_suffix)%string)
        /\ (forall r, yields (match_of id) (Some info) = Some r ->
              Str.lower (rec_identity r) = Str.lower s)
        /\ (forall h sfx,
              server info = (h ++ sfx)%string -> Str.lower sfx = local_suffix ->
              rec_identity (record_of info addr) = h /\
              (yields (match_of id) (Some info) = Some (record_of info addr) <->
                 Str.lower h = Str.lower s))).
Proof.
  intros Ha Hp. split.
  - intros [->| ->]; now rewrite (yields_resolved _ _ _ Ha Hp).
  - intros s -> Hs _ _. rewrite (yields_resolved _ _ _ Ha Hp).
    pose proof (accepts_nonempty s info Hs) as Hacc.
    destruct (accepts (match_of (Some s)) info) eqn:E.
    + assert (Hsrv : Str.lower (server info) = (Str.lower s ++ local_suffix)%string)
        by now apply Hacc.
      repeat split; trivial; try congruence.
      * intros r Hr; injection Hr as <-. simpl. now apply accepted_identity.
      * simpl. unfold serial_of. rewrite H. now apply StrFacts.drop_suffix.
      * intros _. rewrite H, StrFacts.lower_app, H0 in Hsrv.
        now apply StrFacts.app_cancel_r in Hsrv.
    + assert (Hsrv : Str.lower (server info) <> (Str.lower s ++ local_suffix)%string).
      { intros H. apply Hacc in H. congruence. }
      repeat split; trivial; try congruence; try tauto.
      * simpl. unfold serial_of. rewrite H. now apply StrFacts.drop_suffix.
      * intros Hh. exfalso. apply Hsrv.
        now rewrite H, StrFacts.lower_app, H0, Hh.
Qed.

Lemma C1_filter_rule_witness :
  yields (match_of (Some "ABC")) (Some (device "abc.Local." lan_ip))
  = Some (record_of (device "abc.Local." lan_ip) "192.168.1.10").
Proof.
  destruct (C1_filter_rule (Some "ABC") (device "abc.Local." lan_ip) "192.168.1.10"
              eq_refl ltac:(discriminate)) as [_ H].
  destruct (H "ABC" eq_refl ltac:(discriminate) eq_refl eq_refl) as (_ & _ & _ & H').
  destruct (H' "abc" ".Local." eq_refl eq_refl) as [_ [_ H'']].
  apply H''. reflexivity.
Defined.

(** C2: a discovery session never yields a record whose address is
    0.0.0.0, whatever is queued, whatever the filter and the mode and
    whatever the consumer does; the same holds for what [discover_all]
    delivers and what [discover_one] returns.  A dequeued record with the
    packed address 0.0.0.0, the only one that prints as such, is skipped
    before the filter is looked at. *)
Theorem C2_never_yields_placeholder (id : option string) (dns_type : string) :
  (forall single acts s,
      Forall (fun r => rec_address r <> placeholder) (fst (run id dns_type single acts s)))
  /\ (forall timeout_v tr,
         Forall (fun r => rec_address r <> placeholder)
                (received (discover_all id dns_type timeout_v tr)))
  /\ (forall timeout_v tr,
         Forall (fun r => rec_address r <> placeholder)
                (received (discover_one id dns_type timeout_v tr)))
  /\ (forall timeout_v tr r,
         status (discover_one id dns_type timeout_v tr) = Returned r ->
         rec_address r <> placeholder)
  /\ (forall m nm srv p,
         handle m (Some {| name := nm; server := srv; address := Some zero_ip; port := p |})
         = Skip)
  /\ (forall packed, inet_ntoa packed = inr placeholder <-> packed = Some zero_ip).
Proof.
  split; [|split; [|split; [|split; [|split]]]].
  - intros single acts s.
    eapply Forall_impl; [|apply run_emitted]. intros r. apply emitted_not_placeholder.
  - intros timeout_v tr.
    destruct (discover_all_reach id dns_type timeout_v tr) as [lg rcv H|lg rcv H|lg rcv e H _];
      simpl; (eapply Forall_impl; [|exact H]); intros r; apply emitted_not_placeholder.
  - intros timeout_v tr.
    destruct (discover_one_reach id dns_type timeout_v tr) as [lg|lg r H|lg e _]; simpl;
      repeat constructor. now apply emitted_not_placeholder in H.
  - intros timeout_v tr r0.
    destruct (discover_one_reach id dns_type timeout_v tr) as [lg|lg r H|lg e _]; simpl;
      try discriminate.
    intros E; injection E as <-. now apply emitted_not_placeholder in H.
  - reflexivity.
  - apply inet_ntoa_placeholder.
Qed.

Lemma C2_never_yields_placeholder_witness :
  received (discover_all None BREWBLOX_DNS_TYPE (Some DEFAULT_TIMEOUT_S)
              [Arrive (Some (device "sim.local." zero_ip));
               Arrive (Some (device "abc.local." lan_ip))])
  = [record_of (device "abc.local." lan_ip) "192.168.1.10"]
  /\ Forall (fun r => rec_address r <> placeholder)
            (received (discover_all None BREWBLOX_DNS_TYPE (Some DEFAULT_TIMEOUT_S)
                         [Arrive (Some (device "sim.local." zero_ip));
                          Arrive (Some (device "abc.local." lan_ip))])).
Proof.
  split; [reflexivity|].
  apply (C2_never_yields_placeholder None BREWBLOX_DNS_TYPE).
Defined.

Lemma one_begin id dns_type tr timeout_v :
  discover_one id dns_type timeout_v tr =
  fold_left (on_event id dns_type timeout_v true one_settle) tr (waiting dns_type [] []).
Proof. reflexivity. Qed.

Lemma all_begin id dns_type tr timeout_v :
  discover_all id dns_type timeout_v tr =
  fold_left (on_event id dns_type timeout_v false all_settle) tr (waiting dns_type [] []).
Proof. reflexivity. Qed.

Lemma one_split id dns_type timeout_v pre post :
  discover_one id dns_type timeout_v (pre ++ post) =
  fold_left (on_event id dns_type timeout_v true one_settle) post
            (discover_one id dns_type timeout_v pre).
Proof. rewrite !one_begin. apply fold_left_app. Qed.

Lemma all_split id dns_type timeout_v pre post :
  discover_all id dns_type timeout_v (pre ++ post) =
  fold_left (on_event id dns_type timeout_v false all_settle) post
            (discover_all id dns_type timeout_v pre).
Proof. rewrite !all_begin. apply fold_left_app. Qed.

Lemma one_quiet_waiting id dns_type timeout_v pre :
  quiet id timeout_v pre ->
  exists lg, discover_one id dns_type timeout_v pre = waiting dns_type lg [].
Proof. intros H. rewrite one_begin. now apply one_quiet. Qed.

(** C3: [discover_one] with a timeout, when the timer fires after only
    records that do not match have arrived, fails with [TimeoutError]: it
    returns no record, and its session is finished with the subscription
    closed, whatever happens afterwards.  More generally this is the outcome
    whenever the timer fires while the call is still in progress. *)
Theorem C3_timeout_raises (id : option string) (dns_type : string) (t : Q) :
  (forall items rest,
      Forall (not_matching id) items ->
      let c := discover_one id dns_type (Some t) (map Arrive items ++ Deadline :: rest) in
      status c = Failed TimeoutError /\ received c = [] /\
      pc (sess c) = Finished /\ conf (sess c) = Closed)
  /\ (forall pre rest,
         status (discover_one id dns_type (Some t) pre) = Running ->
         let c := discover_one id dns_type (Some t) (pre ++ Deadline :: rest) in
         status c = Failed TimeoutError /\ received c = [] /\
         pc (sess c) = Finished /\ conf (sess c) = Closed).
Proof.
  assert (Hgen : forall pre rest,
             status (discover_one id dns_type (Some t) pre) = Running ->
             let c := discover_one id dns_type (Some t) (pre ++ Deadline :: rest) in
             status c = Failed TimeoutError /\ received c = [] /\
             pc (sess c) = Finished /\ conf (sess c) = Closed).
  { intros pre rest Hrun. rewrite one_split.
    destruct (discover_one_reach id dns_type (Some t) pre) as [lg|lg r H|lg e H];
      try discriminate Hrun.
    simpl fold_left. rewrite one_deadline. rewrite settled_stays by discriminate.
    simpl. auto. }
  split; [|exact Hgen].
  intros items rest H. apply Hgen.
  destruct (one_quiet_waiting id dns_type (Some t) _ (quiet_arrivals id (Some t) items H))
    as [lg ->].
  reflexivity.
Qed.

Lemma not_matching_placeholder id srv : not_matching id (Some (device srv zero_ip)).
Proof. exists (device srv zero_ip), placeholder. repeat split. now left. Qed.

Lemma not_matching_other :
  not_matching (Some "abc") (Some (device "other.local." lan_ip)).
Proof. exists (device "other.local." lan_ip), "192.168.1.10". repeat split. now right. Qed.

Lemma C3_timeout_raises_witness :
  status (discover_one (Some "abc") BREWBLOX_DNS_TYPE (Some DEFAULT_TIMEOUT_S)
            (map Arrive [Some (device "other.local." lan_ip);
                         Some (device "abc.local." zero_ip)]
             ++ Deadline :: [Arrive (Some (device "abc.local." lan_ip))]))
  = Failed TimeoutError.
Proof.
  apply (proj1 (C3_timeout_raises (Some "abc") BREWBLOX_DNS_TYPE DEFAULT_TIMEOUT_S)
           [Some (device "other.local." lan_ip); Some (device "abc.local." zero_ip)]).
  repeat constructor.
  - exact not_matching_other.
  - apply not_matching_placeholder.
Defined.

(** C4: [discover_all] never fails with [TimeoutError] (nor with the
    [CancelledError] of its timer).  When the timer fires while the call is
    in progress, the sequence ends normally: the records delivered are the
    ones delivered before, nothing that arrives later is delivered, and the
    session is finished with the subscription closed. *)
Theorem C4_timeout_ends_sequence (id : option string) (dns_type : string) :
  (forall timeout_v tr,
      status (discover_all id dns_type timeout_v tr) <> Failed TimeoutError /\
      status (discover_all id dns_type timeout_v tr) <> Failed CancelledError)
  /\ (forall t pre rest,
         status (discover_all id dns_type (Some t) pre) = Running ->
         let c := discover_all id dns_type (Some t) (pre ++ Deadline :: rest) in
         status c = Ended /\
         received c = received (discover_all id dns_type (Some t) pre) /\
         pc (sess c) = Finished /\ conf (sess c) = Closed).
Proof.
  split.
  - intros timeout_v tr.
    destruct (discover_all_reach id dns_type timeout_v tr) as [lg rcv H|lg rcv H|lg rcv e H He];
      simpl; split; try discriminate;
      intros E; injection E as ->; unfold loop_errors in He; simpl in He;
      intuition discriminate.
  - intros t pre rest Hrun. rewrite all_split.
    destruct (discover_all_reach id dns_type (Some t) pre) as [lg rcv H|lg rcv H|lg rcv e H He];
      try discriminate Hrun.
    simpl fold_left. rewrite all_deadline. rewrite settled_stays by discriminate.
    simpl. auto.
Qed.

Lemma C4_timeout_ends_sequence_witness :
  let c := discover_all None BREWBLOX_DNS_TYPE (Some DEFAULT_TIMEOUT_S)
             ([Arrive (Some (device "abc.local." lan_ip))]
              ++ Deadline :: [Arrive (Some (device "late.local." lan_ip))]) in
  status c = Ended /\
  received c = [record_of (device "abc.local." lan_ip) "192.168.1.10"] /\
  pc (sess c) = Finished /\ conf (sess c) = Closed.
Proof.
  apply (proj2 (C4_timeout_ends_sequence None BREWBLOX_DNS_TYPE) DEFAULT_TIMEOUT_S
           [Arrive (Some (device "abc.local." lan_ip))]
           [Arrive (Some (device "late.local." lan_ip))]).
  reflexivity.
Defined.

Lemma wf_open dns_type s :
  wf dns_type s ->
  (conf s = Listening dns_type <-> pc s = AtGet \/ pc s = AtYield) /\
  (pc s = Finished -> conf s = Closed \/ conf s = NoConf).
Proof.
  destruct s as [p c q lg]; unfold wf; simpl.
  destruct p; intros H; split; intuition (try discriminate; try congruence).
Qed.

(** C5: over every sequence of consumer actions and queue events the
    subscription of a session is open exactly while its generator is
    suspended inside the [try] block, so a finished session that ever
    started has its subscription closed.  Each exit path finishes the session
    with the subscription closed: the [return] after the first match in
    single mode, [aclose()] by a consumer that stops, cancellation of the
    wait by a timeout, and an exception raised by the loop.  A finished
    session yields nothing more, whatever follows.  A call of [discover_one]
    or [discover_all] that is no longer running has released its session. *)
Theorem C5_release_on_every_exit (id : option string) (dns_type : string) (single : bool) :
  (forall acts,
      let s := snd (run id dns_type single acts fresh) in
      (conf s = Listening dns_type <-> pc s = AtGet \/ pc s = AtYield) /\
      (pc s = Finished -> conf s = Closed \/ conf s = NoConf))
  /\ (forall acts,
         let s := snd (run id dns_type single (Anext :: acts) fresh) in
         pc s = Finished -> conf s = Closed)
  /\ (forall s, pc s = AtYield -> single = true ->
         fst (anext id dns_type single s) = Some StopAsyncIteration /\
         pc (snd (anext id dns_type single s)) = Finished /\
         conf (snd (anext id dns_type single s)) = Closed)
  /\ (forall s, pc s = AtYield ->
         pc (snd (aclose s)) = Finished /\ conf (snd (aclose s)) = Closed)
  /\ (forall s, pc s = AtGet ->
         fst (cancel s) = Some (Error CancelledError) /\
         pc (snd (cancel s)) = Finished /\ conf (snd (cancel s)) = Closed)
  /\ (forall s it e, pc s = AtGet -> queue s = [] -> handle (match_of id) it = Raise e ->
         fst (put id it s) = Some (Error e) /\
         pc (snd (put id it s)) = Finished /\ conf (snd (put id it s)) = Closed)
  /\ (forall s acts, pc s = Finished ->
         fst (run id dns_type single acts s) = [] /\
         pc (snd (run id dns_type single acts s)) = Finished /\
         conf (snd (run id dns_type single acts s)) = conf s)
  /\ (forall timeout_v tr,
         let c := discover_one id dns_type timeout_v tr in
         status c = Running \/ (pc (sess c) = Finished /\ conf (sess c) = Closed))
  /\ (forall timeout_v tr,
         let c := discover_all id dns_type timeout_v tr in
         status c = Running \/ (pc (sess c) = Finished /\ conf (sess c) = Closed)).
Proof.
  assert (Hfresh : wf dns_type fresh) by (unfold wf; simpl; auto).
  split; [|split; [|split; [|split; [|split; [|split; [|split; [|split]]]]]]].
  - intros acts s. apply wf_open. apply run_wf. exact Hfresh.
  - intros acts s Hfin.
    pose (s1 := snd (step id dns_type single Anext fresh)).
    assert (Hrun : s = snd (run id dns_type single acts s1))
      by (unfold s; now rewrite run_cons).
    assert (Hwf : wf dns_type s)
      by (rewrite Hrun; apply run_wf; now apply step_wf).
    assert (Hc : conf s <> NoConf)
      by (rewrite Hrun; apply run_started; simpl; discriminate).
    destruct (wf_open _ _ Hwf) as [_ H]. destruct (H Hfin); congruence.
  - intros [p c q lg]; simpl; intros -> ->. cbn. auto.
  - intros [p c q lg]; simpl; intros ->. cbn. auto.
  - intros [p c q lg]; simpl; intros ->. cbn. auto.
  - intros [p c q lg] it e; simpl; intros -> -> Hh. cbn -[handle]. rewrite Hh. cbn. auto.
  - intros s acts. apply run_finished.
  - intros timeout_v tr c. subst c.
    destruct (discover_one_reach id dns_type timeout_v tr); simpl; auto.
  - intros timeout_v tr c. subst c.
    destruct (discover_all_reach id dns_type timeout_v tr); simpl; auto.
Qed.

Lemma C5_release_on_every_exit_witness :
  let s := snd (run None BREWBLOX_DNS_TYPE false
                  [Anext; Put (Some (device "abc.local." lan_ip)); Aclose] fresh) in
  pc s = Finished /\ conf s = Closed
  /\ fst (run None BREWBLOX_DNS_TYPE false
            [Put (Some (device "late.local." lan_ip)); Anext] s) = [].
Proof.
  intros s.
  assert (Hfin : pc s = Finished) by reflexivity.
  destruct (C5_release_on_every_exit None BREWBLOX_DNS_TYPE false)
    as (_ & Hstarted & _ & _ & _ & _ & Hafter & _).
  split; [exact Hfin|]. split.
  - apply (Hstarted [Put (Some (device "abc.local." lan_ip)); Aclose]). exact Hfin.
  - apply (Hafter s _ Hfin).
Defined.

(** C6, on the code: a fetch that returns [None], or an info without an
    address, is put on the queue like any other; dequeuing it raises
    ([AttributeError], [TypeError]) and the exception ends the call of
    [discover_one] and of [discover_all] instead of being dropped.  No record
    is produced for the event. *)
Theorem C6_failed_fetch_reaches_caller (id : option string) (dns_type : string)
        (timeout_v : option Q) (rest : list env_event) :
  discover_one id dns_type timeout_v (Arrive None :: rest) = over [] [] (Failed AttributeError)
  /\ discover_all id dns_type timeout_v (Arrive None :: rest) = over [] [] (Failed AttributeError)
  /\ (forall nm srv p,
         let info := {| name := nm; server := srv; address := None; port := p |} in
         discover_one id dns_type timeout_v (Arrive (Some info) :: rest)
         = over [] [] (Failed TypeError)
         /\ discover_all id dns_type timeout_v (Arrive (Some info) :: rest)
            = over [] [] (Failed TypeError)).
Proof.
  repeat split.
  - rewrite one_begin. simpl fold_left. rewrite one_arrive. simpl handle.
    now rewrite settled_stays by discriminate.
  - rewrite all_begin. simpl fold_left. rewrite all_arrive. simpl handle.
    now rewrite settled_stays by discriminate.
  - rewrite one_begin. simpl fold_left. rewrite one_arrive. cbn.
    now rewrite settled_stays by discriminate.
  - rewrite all_begin. simpl fold_left. rewrite all_arrive. cbn.
    now rewrite settled_stays by discriminate.
Qed.

(** C7: when, after records that do not match only, a matching record
    arrives before any time bound has elapsed, [discover_one] returns the
    record built from it, a single record, and the session is finished with
    the subscription closed at that point, whatever arrives afterwards.
    Until then the call was still running. *)
Theorem C7_first_match_returned (id : option string) (dns_type : string)
        (timeout_v : option Q) (pre : list env_event) (info : ServiceInfo)
        (addr : string) (rest : list env_event) :
  quiet id timeout_v pre ->
  inet_ntoa (address info) = inr addr -> addr <> placeholder ->
  accepts (match_of id) info = true ->
  let c := discover_one id dns_type timeout_v (pre ++ Arrive (Some info) :: rest) in
  status (discover_one id dns_type timeout_v pre) = Running /\
  status c = Returned (record_of info addr) /\
  received c = [record_of info addr] /\
  pc (sess c) = Finished /\ conf (sess c) = Closed.
Proof.
  intros Hq Ha Hp Hacc. rewrite one_split.
  destruct (one_quiet_waiting id dns_type timeout_v pre Hq) as [lg ->].
  simpl fold_left. rewrite one_arrive.
  rewrite (handle_matching id (Some info) info addr (conj eq_refl Ha) Hp Hacc).
  rewrite settled_stays by discriminate. simpl. auto.
Qed.

Lemma C7_first_match_returned_witness :
  status (discover_one (Some "ABC") BREWBLOX_DNS_TYPE (Some DEFAULT_TIMEOUT_S)
            ([Arrive (Some (device "abc.local." zero_ip))]
             ++ Arrive (Some (device "abc.local." lan_ip))
                :: [Arrive (Some (device "Abc.local." lan_ip)); Deadline]))
  = Returned {| rec_address := "192.168.1.10"; rec_port := 8332; rec_identity := "abc" |}.
Proof.
  apply (C7_first_match_returned (Some "ABC") BREWBLOX_DNS_TYPE (Some DEFAULT_TIMEOUT_S)
           [Arrive (Some (device "abc.local." zero_ip))]
           (device "abc.local." lan_ip) "192.168.1.10").
  - repeat constructor. apply not_matching_placeholder.
  - reflexivity.
  - discriminate.
  - reflexivity.
Defined.

(** C8: the identity of the record yielded for a dequeued info whose server
    name ends in the domain suffix is that name without the suffix, as it is
    written: for one iteration of the loop, for a waiting session that the
    info wakes up, and for what [discover_one] returns on it. *)
Theorem C8_identity_strips_suffix (id : option string) (info : ServiceInfo) (h : string) :
  server info = (h ++ local_suffix)%string ->
  serial_of info = h
  /\ (forall r, yields (match_of id) (Some info) = Some r -> rec_identity r = h)
  /\ (forall s r, pc s = AtGet -> queue s = [] ->
         fst (put id (Some info) s) = Some (Item r) -> rec_identity r = h)
  /\ (forall dns_type timeout_v pre r,
         quiet id timeout_v pre ->
         status (discover_one id dns_type timeout_v (pre ++ [Arrive (Some info)])) = Returned r ->
         rec_identity r = h).
Proof.
  intros Hsrv.
  assert (Hser : serial_of info = h).
  { unfold serial_of. rewrite Hsrv. now apply StrFacts.drop_suffix. }
  assert (Hem : forall r l, handle (match_of id) (Some info) = Emit r l -> rec_identity r = h).
  { intros r l H. apply handle_emit_inv in H.
    destruct H as (info' & addr & [E _] & _ & _ & ->). injection E as <-. exact Hser. }
  split; [exact Hser|]. split; [|split].
  - intros r. unfold yields.
    destruct (handle (match_of id) (Some info)) as [r0 l| |l|e] eqn:E; try discriminate.
    intros H; injection H as <-. now apply (Hem r0 l).
  - intros [p c q lg] r; simpl; intros -> ->. cbn -[handle].
    destruct (handle (match_of id) (Some info)) as [r0 l| |l|e] eqn:E; cbn; try discriminate.
    intros H; injection H as <-. now apply (Hem r0 l).
  - intros dns_type timeout_v pre r Hq. rewrite one_split.
    destruct (one_quiet_waiting id dns_type timeout_v pre Hq) as [lg ->].
    simpl fold_left. rewrite one_arrive.
    destruct (handle (match_of id) (Some info)) as [r0 l| |l|e] eqn:E; cbn; try discriminate.
    intros H; injection H as <-. now apply (Hem r0 l).
Qed.

Lemma C8_identity_strips_suffix_witness :
  serial_of (device "abc123.local." lan_ip) = "abc123".
Proof.
  apply (C8_identity_strips_suffix None (device "abc123.local." lan_ip) "abc123").
  reflexivity.
Defined.

(** On resolved records that all fail to match, [discover_one] without a
    timeout is still suspended in [queue.get()] at every point, having
    returned nothing and raised nothing, with its subscription open. *)
Lemma waits_on_resolved_records (id : option string) (dns_type : string)
      (tr : list env_event) :
  quiet id None tr ->
  let c := discover_one id dns_type None tr in
  status c = Running /\ received c = [] /\
  pc (sess c) = AtGet /\ conf (sess c) = Listening dns_type.
Proof.
  intros Hq. destruct (one_quiet_waiting id dns_type None tr Hq) as [lg ->].
  simpl. auto.
Qed.

(** C9, on the code: [discover_one] without a timeout, on events none of
    which brings a matching record, does not always keep waiting.  After any
    number of records with address 0.0.0.0, on which it is still running, a
    fetched info without an address makes line 45 raise [TypeError], and the
    call ends with that exception, whatever arrives afterwards. *)
Theorem C9_unusable_info_ends_the_wait (id : option string) (names : list string)
        (nm srv : string) (p : Z) (rest : list env_event) :
  let pre := map (fun n => Arrive (Some (device n zero_ip))) names in
  let info := {| name := nm; server := srv; address := None; port := p |} in
  let c := discover_one id BREWBLOX_DNS_TYPE None (pre ++ Arrive (Some info) :: rest) in
  status (discover_one id BREWBLOX_DNS_TYPE None pre) = Running
  /\ status c = Failed TypeError /\ received c = []
  /\ pc (sess c) = Finished /\ conf (sess c) = Closed.
Proof.
  intros pre info c.
  assert (Hq : quiet id None pre).
  { unfold pre, quiet. induction names as [|n names IH]; simpl; constructor; trivial.
    apply not_matching_placeholder. }
  unfold c. rewrite one_split.
  destruct (one_quiet_waiting id BREWBLOX_DNS_TYPE None pre Hq) as [lg ->].
  simpl fold_left. rewrite one_arrive. cbn [handle info address inet_ntoa timeout_exit].
  rewrite settled_stays by discriminate. simpl. auto.
Qed.



(** * Further properties of the session and its wrappers *)

Lemma emits_app m a b : emits m (a ++ b) = emits m a ++ emits m b.
Proof. unfold emits. apply flat_map_app. Qed.

Lemma emits_cons m it items :
  emits m (it :: items) =
  match handle m it with Emit r _ => r :: emits m items | _ => emits m items end.
Proof. unfold emits, yields; simpl. now destruct (handle m it). Qed.

Section Arrivals.

Variables (id : option string) (dns_type : string) (timeout_v : option Q).

Local Abbreviation m := (match_of id).
Local Abbreviation all := (on_event id dns_type timeout_v false all_settle).
Local Abbreviation one := (on_event id dns_type timeout_v true one_settle).

Lemma all_arrivals items lg rcv :
  fold_left all (map Arrive items) (waiting dns_type lg rcv) =
  match first_error m items with
  | None => waiting dns_type (lg ++ flat_map (logs m) items) (rcv ++ emits m items)
  | Some e =>
      over (lg ++ flat_map (logs m) (before_error m items))
           (rcv ++ emits m (before_error m items)) (Failed e)
  end.
Proof.
  revert lg rcv; induction items as [|it items IH]; intros lg rcv.
  - simpl. now rewrite !app_nil_r.
  - cbn [map fold_left first_error before_error]. rewrite all_arrive.
    assert (Hl : forall rest, flat_map (logs m) (it :: rest) = logs m it ++ flat_map (logs m) rest)
      by reflexivity.
    pose proof (emits_cons m it) as He. unfold logs in Hl at 2.
    destruct (handle m it) as [r l| |l|e] eqn:Hh.
    + rewrite IH, !Hl, !He. destruct (first_error m items); now rewrite <- !app_assoc.
    + rewrite IH, !Hl, !He. now destruct (first_error m items).
    + rewrite IH, !Hl, !He. destruct (first_error m items); now rewrite <- !app_assoc.
    + pose proof (handle_raise_inv _ _ _ Hh) as Hin.
      destruct (loop_error_exit e Hin) as [-> ->].
      rewrite settled_stays by discriminate.
      simpl. now rewrite !app_nil_r.
Qed.

End Arrivals.

Lemma before_error_all m items : first_error m items = None -> before_error m items = items.
Proof.
  induction items as [|it items IH]; simpl; [reflexivity|].
  destruct (handle m it); try discriminate; intros H; now rewrite IH.
Qed.

Lemma logs_resolved m it info addr :
  resolved it info addr ->
  logs m it =
    if String.eqb addr placeholder then []
    else if accepts m info then [Discovered (serial_of info) addr (port info)]
         else [Discarding (name info) addr (port info)].
Proof.
  intros H. unfold logs. rewrite (handle_resolved m it info addr H).
  destruct (String.eqb addr placeholder); [reflexivity|]. now destruct (accepts m info).
Qed.

(** X1: on fetch results arriving one after the other, [discover_all]
    delivers exactly the records the loop yields for them, in arrival order
    and with repetitions kept, up to the first item on which the loop raises;
    it keeps running unless there is such an item, and then fails with that
    exception.  If no item raises and a timer is armed, its firing ends the
    sequence with exactly those records. *)
Theorem X1_discover_all_in_arrival_order (id : option string) (dns_type : string)
        (timeout_v : option Q) (items : list item) :
  let m := match_of id in
  let c := discover_all id dns_type timeout_v (map Arrive items) in
  received c = emits m (before_error m items)
  /\ status c = match first_error m items with None => Running | Some e => Failed e end
  /\ (forall rest,
         first_error m items = None -> timeout_v <> None ->
         let c' := discover_all id dns_type timeout_v (map Arrive items ++ Deadline :: rest) in
         status c' = Ended /\ received c' = emits m items).
Proof.
  intros m c.
  assert (Hc : c = match first_error m items with
                   | None => waiting dns_type (flat_map (logs m) items) (emits m items)
                   | Some e => over (flat_map (logs m) (before_error m items))
                                    (emits m (before_error m items)) (Failed e)
                   end).
  { unfold c. rewrite all_begin. apply (all_arrivals id dns_type timeout_v items [] []). }
  split; [|split].
  - rewrite Hc. destruct (first_error m items) eqn:E; simpl; trivial.
    now rewrite before_error_all.
  - rewrite Hc. now destruct (first_error m items).
  - intros rest Hnone Ht c'. unfold c'. rewrite all_split. fold c. rewrite Hc, Hnone.
    simpl fold_left. rewrite all_deadline. destruct timeout_v; [|congruence].
    rewrite settled_stays by discriminate. simpl. auto.
Qed.

Lemma X1_discover_all_in_arrival_order_witness :
  let c := discover_all None BREWBLOX_DNS_TYPE (Some DEFAULT_TIMEOUT_S)
             (map Arrive [Some (device "b.local." lan_ip); Some (device "sim.local." zero_ip);
                          Some (device "a.local." lan_ip); Some (device "b.local." lan_ip)]
              ++ Deadline :: []) in
  status c = Ended /\
  map rec_identity (received c) = ["b"; "a"; "b"]%string.
Proof.
  intros c.
  destruct (X1_discover_all_in_arrival_order None BREWBLOX_DNS_TYPE (Some DEFAULT_TIMEOUT_S)
              [Some (device "b.local." lan_ip); Some (device "sim.local." zero_ip);
               Some (device "a.local." lan_ip); Some (device "b.local." lan_ip)])
    as (_ & _ & H).
  destruct (H [] eq_refl ltac:(discriminate)) as [Hs Hr].
  split; [exact Hs|]. unfold c. rewrite Hr. reflexivity.
Defined.

(** X2: the session log of [discover_all] has, for the items processed, one
    "Discovered" line per record delivered and one "Discarding" line, with
    [info.name], per record the filter refuses, in order; a record with
    address 0.0.0.0 leaves no line. *)
Theorem X2_log_of_discover_all (id : option string) (dns_type : string)
        (timeout_v : option Q) (items : list item) :
  let m := match_of id in
  log (sess (discover_all id dns_type timeout_v (map Arrive items)))
  = flat_map (logs m) (before_error m items)
  /\ (forall it info addr,
         resolved it info addr ->
         logs m it =
           if String.eqb addr placeholder then []
           else if accepts m info then [Discovered (serial_of info) addr (port info)]
                else [Discarding (name info) addr (port info)]).
Proof.
  intros m. split; [|apply logs_resolved].
  rewrite all_begin, (all_arrivals id dns_type timeout_v items [] []).
  destruct (first_error (match_of id) items) eqn:E; simpl; trivial.
  fold m. now rewrite before_error_all.
Qed.

Lemma X2_log_of_discover_all_witness :
  log (sess (discover_all (Some "abc") BREWBLOX_DNS_TYPE None
               (map Arrive [Some (device "sim.local." zero_ip);
                            Some (device "other.local." lan_ip);
                            Some (device "abc.local." lan_ip)])))
  = [Discarding "other.local._brewblox._tcp.local." "192.168.1.10" 8332;
     Discovered "abc" "192.168.1.10" 8332].
Proof.
  rewrite (proj1 (X2_log_of_discover_all (Some "abc") BREWBLOX_DNS_TYPE None _)).
  reflexivity.
Defined.

Section OneAndAll.

Variables (id : option string) (dns_type : string) (timeout_v : option Q).

Local Abbreviation all := (on_event id dns_type timeout_v false all_settle).
Local Abbreviation one := (on_event id dns_type timeout_v true one_settle).

Lemma all_step_extends c ev :
  all_reach id dns_type c -> exists more, received (all c ev) = received c ++ more.
Proof.
  intros [lg rcv Hr|lg rcv Hr|lg rcv e Hr He].
  - destruct ev as [it|].
    + rewrite all_arrive.
      destruct (handle (match_of id) it) as [r l| |l|e]; simpl;
        try (exists []; now rewrite app_nil_r).
      now exists [r].
    + rewrite all_deadline. exists []. rewrite app_nil_r. now destruct timeout_v.
  - exists []. now rewrite app_nil_r.
  - exists []. now rewrite app_nil_r.
Qed.

Lemma all_fold_extends tr c :
  all_reach id dns_type c -> exists more, received (fold_left all tr c) = received c ++ more.
Proof.
  revert c; induction tr as [|ev tr IH]; intros c Hc.
  - exists []. simpl. now rewrite app_nil_r.
  - simpl. destruct (all_step_extends c ev Hc) as [m1 H1].
    destruct (IH _ (all_reach_step id dns_type timeout_v c ev Hc)) as [m2 H2].
    exists (m1 ++ m2). now rewrite H2, H1, app_assoc.
Qed.

Lemma one_all_step c1 c2 ev :
  one_all id dns_type c1 c2 -> one_all id dns_type (one c1 ev) (all c2 ev).
Proof.
  intros [lg|lg r c more Hc Hr|lg e c Hs Hr].
  - destruct ev as [it|].
    + rewrite one_arrive, all_arrive.
      destruct (handle (match_of id) it) as [r l| |l|e] eqn:Hh.
      * apply (oa_returned id dns_type _ r _ []); [|reflexivity].
        apply all_waiting. repeat constructor. now exists it, l.
      * constructor.
      * constructor.
      * pose proof (handle_raise_inv _ _ _ Hh) as Hin.
        destruct (loop_error_exit e Hin) as [-> ->].
        apply oa_failed; [discriminate|reflexivity].
    + rewrite one_deadline, all_deadline. destruct timeout_v; [|constructor].
      apply oa_failed; [discriminate|reflexivity].
  - destruct (all_step_extends c ev Hc) as [m1 H1].
    apply (oa_returned id dns_type lg r _ (more ++ m1)).
    + now apply all_reach_step.
    + now rewrite H1, Hr.
  - replace (all c ev) with c; [now apply oa_failed|].
    unfold on_event. destruct (status c); congruence.
Qed.

Lemma one_all_fold tr c1 c2 :
  one_all id dns_type c1 c2 ->
  one_all id dns_type (fold_left one tr c1) (fold_left all tr c2).
Proof.
  revert c1 c2; induction tr as [|ev tr IH]; intros c1 c2 H; [exact H|].
  simpl. apply IH. now apply one_all_step.
Qed.

End OneAndAll.

(** X3: on the same events, [discover_one] returns a record exactly when
    [discover_all] delivers at least one, and what it returns is the first
    record [discover_all] delivers. *)
Theorem X3_one_returns_first_of_all (id : option string) (dns_type : string)
        (timeout_v : option Q) (tr : list env_event) (r : ServiceRecord) :
  status (discover_one id dns_type timeout_v tr) = Returned r <->
  hd_error (received (discover_all id dns_type timeout_v tr)) = Some r.
Proof.
  rewrite one_begin, all_begin.
  destruct (one_all_fold id dns_type timeout_v tr _ _ (oa_waiting id dns_type []))
    as [lg|lg r0 c more Hc Hr|lg e c Hs Hr]; simpl.
  - split; discriminate.
  - rewrite Hr. simpl. split; intros H; injection H as ->; reflexivity.
  - rewrite Hr. simpl. split; discriminate.
Qed.

Section Budget.

Variables (id : option string) (dns_type : string).

(** The records a generator in single mode can still yield. *)
Let budget (s : session) : nat :=
  match pc s with
  | Created | AtGet => 1
  | AtYield | Finished => 0
  end.

Lemma single_step_budget a s :
  List.length (yielded (fst (step id dns_type true a s)))
  + budget (snd (step id dns_type true a s)) <= budget s.
Proof.
  destruct s as [p c q lg]. unfold budget.
  destruct a as [|it| |]; destruct p; cbn; try lia.
  destruct (loop (match_of id) (q ++ [it]) lg) as [[b q0] lg0]; destruct b; cbn; lia.
Qed.

Lemma single_run_budget acts s :
  List.length (fst (run id dns_type true acts s)) <= budget s.
Proof.
  revert s; induction acts as [|a acts IH]; intros s; [simpl; lia|].
  rewrite run_cons; simpl fst. rewrite length_app.
  pose proof (single_step_budget a s). specialize (IH (snd (step id dns_type true a s))). lia.
Qed.

End Budget.

(** X5: a generator in single mode yields at most one record, whatever is
    queued, whatever its state and whatever the consumer does with it. *)
Theorem X5_single_mode_yields_at_most_one (id : option string) (dns_type : string)
        (acts : list action) (s : session) :
  List.length (fst (run id dns_type true acts s)) <= 1.
Proof.
  pose proof (single_run_budget id dns_type acts s) as H.
  cbv beta zeta in H. destruct (pc s); lia.
Qed.

Section SameFilter.

Variables (id1 id2 : option string).
Hypothesis Hm : match_of id1 = match_of id2.

Lemma anext_same dns_type single s :
  anext id1 dns_type single s = anext id2 dns_type single s.
Proof. unfold anext. now rewrite Hm. Qed.

Lemma step_same dns_type single a s :
  step id1 dns_type single a s = step id2 dns_type single a s.
Proof.
  destruct a; simpl; trivial; [apply anext_same|]. unfold put. now rewrite Hm.
Qed.

Lemma run_same dns_type single acts s :
  run id1 dns_type single acts s = run id2 dns_type single acts s.
Proof.
  revert s; induction acts as [|a acts IH]; intros s; [reflexivity|].
  simpl. rewrite step_same. destruct (step id2 dns_type single a s) as [rep s'].
  now rewrite IH.
Qed.

Lemma consume_same dns_type single fuel rep s got :
  consume id1 dns_type single fuel rep s got = consume id2 dns_type single fuel rep s got.
Proof.
  revert rep s got; induction fuel as [|n IH]; intros rep s got.
  - now destruct rep as [[| |]|].
  - destruct rep as [[r| |e]|]; simpl; trivial.
    rewrite anext_same. destruct (anext id2 dns_type single s) as [rep' s']. apply IH.
Qed.

Lemma on_event_same dns_type timeout_v single settle c ev :
  on_event id1 dns_type timeout_v single settle c ev
  = on_event id2 dns_type timeout_v single settle c ev.
Proof.
  unfold on_event, pump. destruct (status c); trivial.
  destruct ev as [it|].
  - replace (put id1 it (sess c)) with (put id2 it (sess c))
      by (unfold put; now rewrite Hm).
    now rewrite consume_same.
  - destruct timeout_v; trivial. now rewrite consume_same.
Qed.

Lemma drive_same dns_type timeout_v single settle tr :
  drive id1 dns_type timeout_v single settle tr = drive id2 dns_type timeout_v single settle tr.
Proof.
  unfold drive.
  assert (Hb : begin id1 dns_type single settle = begin id2 dns_type single settle).
  { unfold begin, pump. now rewrite anext_same, consume_same. }
  rewrite Hb. generalize (begin id2 dns_type single settle).
  induction tr as [|ev tr IH]; intros c; [reflexivity|].
  simpl. rewrite on_event_same. apply IH.
Qed.

End SameFilter.

Lemma lower_empty (s : string) : Str.lower s = EmptyString -> s = EmptyString.
Proof. destruct s; [reflexivity|discriminate]. Qed.

Lemma match_of_lower (s1 s2 : string) :
  Str.lower s1 = Str.lower s2 -> match_of (Some s1) = match_of (Some s2).
Proof.
  intros H. destruct s1 as [|c1 s1], s2 as [|c2 s2]; try discriminate H; trivial.
  unfold match_of. now rewrite !StrFacts.lower_app, H.
Qed.

(** X6: the letter case of the filter identity does not matter: two
    identities of ASCII characters that are equal once lower-cased give the
    same session, the
    same [discover_one] and the same [discover_all] on every input. *)
Theorem X6_filter_identity_case_insensitive (s1 s2 : string) (dns_type : string) :
  Str.is_ascii s1 = true -> Str.is_ascii s2 = true ->
  Str.lower s1 = Str.lower s2 ->
  (forall single acts s,
      run (Some s1) dns_type single acts s = run (Some s2) dns_type single acts s)
  /\ (forall timeout_v tr,
         discover_one (Some s1) dns_type timeout_v tr
         = discover_one (Some s2) dns_type timeout_v tr)
  /\ (forall timeout_v tr,
         discover_all (Some s1) dns_type timeout_v tr
         = discover_all (Some s2) dns_type timeout_v tr).
Proof.
  intros _ _ H. pose proof (match_of_lower s1 s2 H) as Hm.
  split; [|split]; intros.
  - now apply run_same.
  - now apply drive_same.
  - now apply drive_same.
Qed.

Lemma X6_filter_identity_case_insensitive_witness :
  discover_one (Some "Abc-01") BREWBLOX_DNS_TYPE None
    [Arrive (Some (device "ABC-01.local." lan_ip))]
  = discover_one (Some "aBC-01") BREWBLOX_DNS_TYPE None
      [Arrive (Some (device "ABC-01.local." lan_ip))]
  /\ status (discover_one (Some "aBC-01") BREWBLOX_DNS_TYPE None
               [Arrive (Some (device "ABC-01.local." lan_ip))])
     = Returned (record_of (device "ABC-01.local." lan_ip) "192.168.1.10").
Proof.
  split; [|reflexivity].
  apply (X6_filter_identity_case_insensitive "Abc-01" "aBC-01" BREWBLOX_DNS_TYPE);
    reflexivity.
Defined.


Section Fifo.

Variables (id : option string) (dns_type : string) (single : bool).

Local Abbreviation m := (match_of id).

Lemma loop_emits q lg :
  match loop m q lg with
  | (BYield r, q', _) => emits m q = r :: emits m q'
  | (BAwait, q', _) => emits m q = [] /\ q' = []
  | _ => True
  end.
Proof.
  revert lg; induction q as [|it q IH]; intros lg; cbn [loop]; [auto|].
  rewrite emits_cons. destruct (handle m it) as [r l| |l|e]; trivial; apply IH.
Qed.

Lemma fifo_loop c q lg :
  let res := try_finally c (loop m q lg) in
  pc (snd res) <> Created /\
  ((pc (snd res) = Finished /\ yielded (fst res) = []) \/
   emits m q = yielded (fst res) ++ emits m (pending (snd res))).
Proof.
  pose proof (loop_emits q lg) as H.
  destruct (loop m q lg) as [[b q0] lg0]; destruct b; cbn; split; try discriminate; auto.
  destruct H as [-> ->]. now right.
Qed.

Lemma fifo_step a s :
  pc s <> Created ->
  pc (snd (step id dns_type single a s)) <> Created /\
  ((pc (snd (step id dns_type single a s)) = Finished /\
    yielded (fst (step id dns_type single a s)) = []) \/
   emits m (pending s ++ puts [a])
   = yielded (fst (step id dns_type single a s))
     ++ emits m (pending (snd (step id dns_type single a s)))).
Proof.
  destruct s as [p c q lg]; simpl; intros Hp.
  destruct a as [|it| |]; destruct p; try congruence; unfold pending;
    cbn -[loop try_finally emits];
    rewrite ?app_nil_r;
    try (split; [discriminate|]; now right);
    try (split; [discriminate|]; left; now split).
  - destruct single.
    + cbn. split; [discriminate|]. left; now split.
    + apply fifo_loop.
  - apply fifo_loop.
Qed.

Lemma fifo_run acts s :
  pc s <> Created ->
  exists rest,
    emits m (pending s ++ puts acts) = fst (run id dns_type single acts s) ++ rest.
Proof.
  revert s; induction acts as [|a acts IH]; intros s Hs.
  - simpl. eexists; reflexivity.
  - rewrite run_cons. simpl fst.
    destruct (fifo_step a s Hs) as [Hs' [[Hfin Hy]|Heq]].
    + rewrite Hy. simpl.
      rewrite (proj1 (run_finished id dns_type single acts _ Hfin)).
      eexists; reflexivity.
    + destruct (IH _ Hs') as [rest Hr].
      exists rest. change (a :: acts) with ([a] ++ acts).
      unfold puts at 1. rewrite flat_map_app. fold (puts [a]). fold (puts acts).
      rewrite app_assoc, emits_app, Heq, <- !app_assoc. f_equal.
      rewrite <- emits_app. exact Hr.
Qed.

End Fifo.

(** X7: a started generator yields in queue order: over any sequence of
    consumer actions and fetch results, in either mode, the records yielded
    are an initial part of the records the loop yields for the fetch results
    in the order they were queued, none left out in between and none twice,
    however late the consumer asks. *)
Theorem X7_yields_in_queue_order (id : option string) (dns_type : string) (single : bool)
        (acts : list action) :
  exists rest,
    emits (match_of id) (puts acts)
    = fst (run id dns_type single (Anext :: acts) fresh) ++ rest.
Proof.
  rewrite run_cons. simpl fst.
  destruct (fifo_run id dns_type single acts (snd (step id dns_type single Anext fresh)))
    as [rest H]; [discriminate|].
  exists rest. exact H.
Qed.

(** * The HTTP handlers *)

Lemma emitted_identity (s : string) (r : ServiceRecord) :
  s <> EmptyString -> emitted (match_of (Some s)) r ->
  Str.lower (rec_identity r) = Str.lower s.
Proof.
  intros Hs (it & l & H). apply handle_emit_inv in H.
  destruct H as (info & addr & _ & _ & Hacc & ->). simpl.
  apply accepted_identity. now apply accepts_nonempty.
Qed.

Section Endings.

Variables (id : option string) (dns_type : string) (timeout_v : option Q).

Local Abbreviation all := (on_event id dns_type timeout_v false all_settle).
Local Abbreviation one := (on_event id dns_type timeout_v true one_settle).

Lemma all_ended_fold tr c :
  all_reach id dns_type c -> status (fold_left all tr c) = Ended ->
  status c = Ended \/ (timeout_v <> None /\ In Deadline tr).
Proof.
  revert c; induction tr as [|ev tr IH]; intros c Hc H; [now left|].
  simpl in H. destruct (IH _ (all_reach_step id dns_type timeout_v c ev Hc) H) as [H'|[Ht Hin]].
  - destruct Hc as [lg rcv Hr|lg rcv Hr|lg rcv e Hr He]; [|now left|discriminate H'].
    destruct ev as [it|].
    + rewrite all_arrive in H'.
      destruct (handle (match_of id) it) as [r l| |l|e] eqn:Hh; try discriminate H'.
      pose proof (handle_raise_inv _ _ _ Hh) as Hin.
      destruct (loop_error_exit e Hin) as [He1 He2]. rewrite He1, He2 in H'. discriminate H'.
    + rewrite all_deadline in H'. right. split; [|now left].
      destruct timeout_v; [discriminate|discriminate H'].
  - right. split; [exact Ht|now right].
Qed.


End Endings.

Lemma discover_all_ended id dns_type timeout_v tr :
  status (discover_all id dns_type timeout_v tr) = Ended ->
  timeout_v <> None /\ In Deadline tr.
Proof.
  rewrite all_begin. intros H.
  destruct (all_ended_fold id dns_type timeout_v tr _
              (all_waiting id dns_type [] [] (Forall_nil _)) H) as [H'|H']; [discriminate H'|exact H'].
Qed.


Lemma discover_all_emitted id dns_type timeout_v tr :
  Forall (emitted (match_of id)) (received (discover_all id dns_type timeout_v tr)).
Proof.
  now destruct (discover_all_reach id dns_type timeout_v tr).
Qed.

Lemma discover_all_until_deadline id dns_type t items rest :
  first_error (match_of id) items = None ->
  let c := discover_all id dns_type (Some t) (map Arrive items ++ Deadline :: rest) in
  status c = Ended /\ received c = emits (match_of id) items.
Proof.
  intros Hfe c. unfold c. rewrite all_split, all_begin.
  rewrite (all_arrivals id dns_type (Some t) items [] []), Hfe.
  simpl fold_left. rewrite all_deadline.
  rewrite settled_stays by discriminate. simpl. auto.
Qed.

(** X8: the handler of /discover_all answers only once the timer has fired:
    a response implies that the request did not carry "timeout": null and
    that the deadline is among the events, and no device in it has host
    0.0.0.0.  A request without "timeout" gets the default bound: when the
    timer fires after fetch results on which the loop does not raise, the
    response lists the records the loop yields for them, in arrival order,
    possibly none. *)
Theorem X8_discover_all_endpoint (data : request) (tr : list env_event) :
  (forall body,
      post_discover_all data tr = Some (Response body) ->
      req_timeout data <> Null /\ In Deadline tr /\
      Forall (fun j => host j <> placeholder) body)
  /\ (forall dns_type items rest,
         dict_get_default (req_dns_type data) BREWBLOX_DNS_TYPE = Some dns_type ->
         req_timeout data <> Null ->
         first_error (match_of (dict_get (req_id data))) items = None ->
         post_discover_all data (map Arrive items ++ Deadline :: rest)
         = Some (Response (map to_json (emits (match_of (dict_get (req_id data))) items)))).
Proof.
  split.
  - intros body. unfold post_discover_all.
    destruct (dict_get_default (req_dns_type data) BREWBLOX_DNS_TYPE) as [dns_type|];
      [|discriminate].
    set (tv := dict_get_default (req_timeout data) DEFAULT_TIMEOUT_S).
    set (c := discover_all (dict_get (req_id data)) dns_type tv tr).
    destruct (status c) eqn:Hs; try discriminate.
    intros H; injection H as <-.
    destruct (discover_all_ended _ _ _ _ Hs) as [Htv Hin].
    split; [|split; [exact Hin|]].
    + intros Hn. apply Htv. unfold tv. now rewrite Hn.
    + apply Forall_map.
      eapply Forall_impl; [|apply discover_all_emitted].
      intros r. apply emitted_not_placeholder.
  - intros dns_type items rest Hd Ht Hfe. unfold post_discover_all. rewrite Hd.
    destruct (dict_get_default (req_timeout data) DEFAULT_TIMEOUT_S) as [t|] eqn:Et;
      [|destruct (req_timeout data); simpl in Et; congruence].
    destruct (discover_all_until_deadline (dict_get (req_id data)) dns_type t items rest Hfe)
      as [Hs Hr].
    now rewrite Hs, Hr.
Qed.

Lemma X8_discover_all_endpoint_witness :
  post_discover_all {| req_id := Null; req_dns_type := Missing; req_timeout := Missing |}
    (map Arrive [Some (device "sim.local." zero_ip); Some (device "abc.local." lan_ip)]
     ++ Deadline :: [])
  = Some (Response [{| host := "192.168.1.10"; jport := 8332; jid := "abc" |}]).
Proof.
  apply (proj2 (X8_discover_all_endpoint
                  {| req_id := Null; req_dns_type := Missing; req_timeout := Missing |} [])
               BREWBLOX_DNS_TYPE).
  - reflexivity.
  - discriminate.
  - reflexivity.
Defined.



(** * The command line *)

Module ReFacts.
Import Re.

Lemma eq_ci_lower a b : eq_ci a b = true -> Str.lower_ascii a = Str.lower_ascii b.
Proof. unfold eq_ci. apply Ascii.eqb_eq. Qed.

Lemma strip_ci_sound w s s' :
  strip_ci w s = Some s' -> exists u, s = (u ++ s')%string /\ Str.lower u = Str.lower w.
Proof.
  revert s; induction w as [|a w IH]; intros s; simpl.
  - intros H; injection H as ->. now exists EmptyString.
  - destruct s as [|b s]; [discriminate|].
    destruct (eq_ci a b) eqn:E; [|discriminate]. intros H.
    destruct (IH _ H) as (u & -> & Hu). exists (String b u). split; [reflexivity|].
    simpl. now rewrite Hu, (eq_ci_lower _ _ E).
Qed.

Lemma strip_ci_complete w u s :
  Str.lower u = Str.lower w -> strip_ci w (u ++ s)%string = Some s.
Proof.
  revert u; induction w as [|a w IH]; intros [|b u]; simpl; try discriminate; trivial.
  intros H; injection H as Hc Hu. unfold eq_ci. rewrite Hc, Ascii.eqb_refl. now apply IH.
Qed.

Lemma plus_cls_sound R ranges s k x :
  plus_cls R ranges s k = Some x ->
  exists u s', s = (u ++ s')%string /\ u <> EmptyString /\
               string_forallb (in_class ranges) u = true /\ k s' = Some x.
Proof.
  induction s as [|c s IH]; simpl; [discriminate|].
  destruct (in_class ranges c) eqn:Hc; [|discriminate].
  destruct (plus_cls R ranges s k) as [y|] eqn:E.
  - intros H; injection H as ->. destruct (IH eq_refl) as (u & s' & -> & _ & Hu & Hk).
    exists (String c u), s'. repeat split; trivial; [discriminate|]. simpl. now rewrite Hc, Hu.
  - intros Hk. exists (String c EmptyString), s. repeat split; trivial; [discriminate|].
    simpl. now rewrite Hc.
Qed.

Lemma plus_cls_greedy R ranges u rest k x :
  u <> EmptyString -> string_forallb (in_class ranges) u = true ->
  plus_cls R ranges rest k = None -> k rest = Some x ->
  plus_cls R ranges (u ++ rest)%string k = Some x.
Proof.
  intros Hu Hall Hrest Hk. induction u as [|c u IH]; [congruence|].
  simpl in Hall. apply andb_prop in Hall. destruct Hall as [Hc Hall].
  simpl. rewrite Hc. destruct u as [|d u].
  - simpl. now rewrite Hrest.
  - now rewrite IH by (trivial; discriminate).
Qed.

Lemma substring_taken (u s : string) :
  substring 0 (String.length (u ++ s) - String.length s) (u ++ s)%string = u.
Proof.
  rewrite StrFacts.length_app.
  replace (String.length u + String.length s - String.length s) with (String.length u) by lia.
  apply StrFacts.substring_prefix.
Qed.

End ReFacts.

Lemma in_class_alnum (c : ascii) : Re.in_class alnum c = is_alnum c.
Proof. destruct c as [[] [] [] [] [] [] [] []]; reflexivity. Qed.

Lemma string_forallb_ext (p q : ascii -> bool) (s : string) :
  (forall c, p c = q c) -> string_forallb p s = string_forallb q s.
Proof. intros H. induction s as [|c s IH]; simpl; [reflexivity|]. now rewrite H, IH. Qed.

Lemma lower_one (s : string) (c : ascii) :
  Str.lower s = String c EmptyString -> exists d, s = String d EmptyString /\ Str.lower_ascii d = c.
Proof.
  destruct s as [|d [|e s]]; simpl; try discriminate.
  intros H; injection H as <-. now exists d.
Qed.

Lemma lower_ascii_underscore (d : ascii) : Str.lower_ascii d = "_"%char -> d = "_"%char.
Proof.
  destruct d as [[] [] [] [] [] [] [] []]; vm_compute; intros H; try discriminate H; reflexivity.
Qed.

Lemma lower_ascii_dash (d : ascii) : Str.lower_ascii d = "-"%char -> d = "-"%char.
Proof.
  destruct d as [[] [] [] [] [] [] [] []]; vm_compute; intros H; try discriminate H; reflexivity.
Qed.

(** The shape of a match of the pattern at the head of [s]. *)
Lemma usb_match_shape (s : string) (n : nat) (caps : Re.captures) :
  Re.match_at usb_pattern s = Some (n, caps) ->
  exists u mdl ser rest,
    s = (u ++ mdl ++ "_" ++ ser ++ "-" ++ rest)%string /\
    Str.lower u = "particle_" /\
    (Str.lower mdl = "p1" \/ Str.lower mdl = "photon") /\
    ser <> EmptyString /\ string_forallb is_alnum ser = true /\
    n = String.length rest /\
    caps = [("serial", ser); ("model", mdl)].
Proof.
  unfold Re.match_at, usb_pattern. cbn [Re.exec].
  destruct (Re.strip_ci "particle_" s) as [s1|] eqn:E1; [|discriminate].
  destruct (ReFacts.strip_ci_sound _ _ _ E1) as (u & -> & Hu).
  assert (Htail : forall mdl s2 (w : string),
             s1 = (mdl ++ s2)%string -> Str.lower mdl = Str.lower w ->
             match Re.strip_ci "_" s2 with
             | Some s' =>
                 Re.plus_cls (nat * Re.captures) alnum s'
                   (fun s'0 =>
                      match Re.strip_ci "-" s'0 with
                      | Some s'1 =>
                          Some (String.length s'1,
                                [("serial", substring 0 (String.length s' - String.length s'0) s');
                                 ("model", substring 0 (String.length s1 - String.length s2) s1)])
                      | None => None
                      end)
             | None => None
             end = Some (n, caps) ->
             exists ser rest,
               s1 = (mdl ++ "_" ++ ser ++ "-" ++ rest)%string /\
               ser <> EmptyString /\ string_forallb is_alnum ser = true /\
               n = String.length rest /\ caps = [("serial", ser); ("model", mdl)]).
  { intros mdl s2 w -> Hm.
    destruct (Re.strip_ci "_" s2) as [s3|] eqn:E3; [|discriminate].
    destruct (ReFacts.strip_ci_sound _ _ _ E3) as (u3 & -> & Hu3).
    destruct (lower_one _ _ Hu3) as (d3 & -> & Hd3).
    apply lower_ascii_underscore in Hd3; subst d3.
    intros H. apply ReFacts.plus_cls_sound in H.
    destruct H as (ser & s4 & -> & Hser & Hall & H).
    destruct (Re.strip_ci "-" s4) as [s5|] eqn:E5; [|discriminate].
    destruct (ReFacts.strip_ci_sound _ _ _ E5) as (u5 & -> & Hu5).
    destruct (lower_one _ _ Hu5) as (d5 & -> & Hd5).
    apply lower_ascii_dash in Hd5; subst d5.
    injection H as <- <-.
    exists ser, s5. repeat split; trivial.
    - rewrite <- Hall. apply string_forallb_ext. intros c. symmetry. apply in_class_alnum.
    - now rewrite ReFacts.substring_taken, ReFacts.substring_taken. }
  destruct (Re.strip_ci "p1" s1) as [s2|] eqn:E2.
  - destruct (ReFacts.strip_ci_sound _ _ _ E2) as (mdl & Hs1 & Hm).
    match goal with |- context [match ?X with Some _ => _ | None => _ end = _] =>
      destruct X as [[n' caps']|] eqn:EX end.
    + intros H; injection H as -> ->.
      destruct (Htail mdl s2 "p1" Hs1 Hm EX) as (ser & rest & -> & H1 & H2 & H3 & H4).
      exists u, mdl, ser, rest. repeat split; trivial. now left.
    + destruct (Re.strip_ci "photon" s1) as [s2'|] eqn:E2'; [|discriminate].
      destruct (ReFacts.strip_ci_sound _ _ _ E2') as (mdl' & Hs1' & Hm').
      intros H. destruct (Htail mdl' s2' "photon" Hs1' Hm' H) as (ser & rest & -> & H1 & H2 & H3 & H4).
      exists u, mdl', ser, rest. repeat split; trivial. now right.
  - destruct (Re.strip_ci "photon" s1) as [s2'|] eqn:E2'; [|discriminate].
    destruct (ReFacts.strip_ci_sound _ _ _ E2') as (mdl' & Hs1' & Hm').
    intros H. destruct (Htail mdl' s2' "photon" Hs1' Hm' H) as (ser & rest & -> & H1 & H2 & H3 & H4).
    exists u, mdl', ser, rest. repeat split; trivial. now right.
Qed.

Section ExecFacts.
Import Re.

Lemma plus_cls_ext R ranges s (k1 k2 : string -> option R) :
  (forall s', k1 s' = k2 s') -> plus_cls R ranges s k1 = plus_cls R ranges s k2.
Proof.
  intros H. induction s as [|c s IH]; simpl; [reflexivity|]. now rewrite IH, H.
Qed.

Lemma exec_cont_ext R r : forall s caps (k1 k2 : string -> captures -> option R),
  (forall s' caps', k1 s' caps' = k2 s' caps') -> exec R r s caps k1 = exec R r s caps k2.
Proof.
  induction r as [w|ranges|ranges|a IHa b IHb|a IHa b IHb|name a IHa]; intros s caps k1 k2 H;
    simpl.
  - now destruct (strip_ci w s).
  - destruct s as [|c s]; [reflexivity|]. now rewrite H.
  - apply plus_cls_ext. intros s'. apply H.
  - apply IHa. intros s' caps'. now apply IHb.
  - now rewrite (IHa s caps k1 k2 H), (IHb s caps k1 k2 H).
  - apply IHa. intros s' caps'. apply H.
Qed.

Lemma plus_cls_map R R' (f : R -> R') ranges s (k : string -> option R) :
  plus_cls R' ranges s (fun s' => option_map f (k s'))
  = option_map f (plus_cls R ranges s k).
Proof.
  induction s as [|c s IH]; simpl; [reflexivity|].
  destruct (in_class ranges c); [|reflexivity].
  rewrite IH. now destruct (plus_cls R ranges s k).
Qed.

Lemma exec_map R R' (f : R -> R') r : forall s caps (k : string -> captures -> option R),
  exec R' r s caps (fun s' caps' => option_map f (k s' caps'))
  = option_map f (exec R r s caps k).
Proof.
  induction r as [w|ranges|ranges|a IHa b IHb|a IHa b IHb|name a IHa]; intros s caps k; simpl.
  - now destruct (strip_ci w s).
  - destruct s as [|c s]; [reflexivity|]. now destruct (in_class ranges c).
  - apply (plus_cls_map R R' f ranges s (fun s' => k s' caps)).
  - rewrite <- IHa. apply exec_cont_ext. intros s' caps'. apply IHb.
  - rewrite IHa, IHb. now destruct (exec R a s caps k).
  - apply (IHa s caps (fun s' caps' => k s' ((name, _) :: caps'))).
Qed.

Variable ch : ascii.

Lemma strip_ci_past w s t :
  string_forallb (fun a => negb (eq_ci a ch)) w = true ->
  strip_ci w (s ++ String ch t)%string
  = option_map (fun s' => (s' ++ String ch t)%string) (strip_ci w s).
Proof.
  revert s; induction w as [|a w IH]; intros s Hw; simpl; [reflexivity|].
  simpl in Hw. apply andb_prop in Hw. destruct Hw as [Ha Hw].
  destruct s as [|b s]; simpl.
  - apply negb_true_iff in Ha. now rewrite Ha.
  - destruct (eq_ci a b); [now apply IH|reflexivity].
Qed.

Lemma plus_cls_past R ranges s t (k : string -> option R) :
  in_class ranges ch = false ->
  plus_cls R ranges (s ++ String ch t)%string k
  = plus_cls R ranges s (fun s' => k (s' ++ String ch t)%string).
Proof.
  intros Hc. induction s as [|c s IH]; simpl; [now rewrite Hc|].
  now rewrite IH.
Qed.

Lemma substring_within (n : nat) (s t : string) :
  n <= String.length s -> substring 0 n (s ++ t)%string = substring 0 n s.
Proof.
  revert n; induction s as [|c s IH]; intros [|n] Hn; simpl in *; try lia; trivial.
  - now destruct t.
  - rewrite IH by lia. reflexivity.
Qed.

(** A pattern that cannot match [ch] matches in front of a [ch] as it
    matches at the end of the input. *)
Lemma exec_past R r t : avoids ch r = true ->
  forall s caps (k : string -> captures -> option R),
    exec R r (s ++ String ch t)%string caps k
    = exec R r s caps (fun s' caps' => k (s' ++ String ch t)%string caps').
Proof.
  induction r as [w|ranges|ranges|a IHa b IHb|a IHa b IHb|name a IHa];
    simpl; intros Hav s caps k.
  - rewrite strip_ci_past by exact Hav. now destruct (strip_ci w s).
  - apply negb_true_iff in Hav. destruct s as [|c s]; simpl; [now rewrite Hav|reflexivity].
  - apply negb_true_iff in Hav. now apply plus_cls_past.
  - apply andb_prop in Hav. destruct Hav as [Ha Hb].
    rewrite (IHa Ha). apply exec_cont_ext. intros s' caps'. now apply IHb.
  - apply andb_prop in Hav. destruct Hav as [Ha Hb].
    now rewrite (IHa Ha), (IHb Hb).
  - rewrite (IHa Hav). apply exec_cont_ext. intros s' caps'.
    rewrite !StrFacts.length_app.
    replace (String.length s + String.length (String ch t)
             - (String.length s' + String.length (String ch t)))
      with (String.length s - String.length s') by lia.
    rewrite substring_within by lia. reflexivity.
Qed.

Lemma match_at_past r s t :
  avoids ch r = true ->
  match_at r (s ++ String ch t)%string
  = option_map (fun m => (fst m + S (String.length t), snd m)) (match_at r s).
Proof.
  intros Hav. unfold match_at. rewrite (exec_past _ r t Hav).
  rewrite <- exec_map. apply exec_cont_ext. intros s' caps'. simpl.
  now rewrite StrFacts.length_app.
Qed.

Lemma finditer_past r b :
  avoids ch r = true ->
  forall a skip, skip <= String.length a ->
    finditer r skip (a ++ String ch b)%string = finditer r skip a ++ finditer r 0 b.
Proof.
  intros Hav. induction a as [|c a IH]; intros skip Hskip.
  - simpl in Hskip. assert (skip = 0) by lia. subst skip.
    change (EmptyString ++ String ch b)%string with (String ch b).
    cbn [finditer].
    change (String ch b) with (EmptyString ++ String ch b)%string at 1.
    rewrite (match_at_past r EmptyString b Hav).
    destruct (match_at r EmptyString) as [[n caps]|]; cbn [option_map fst snd];
      [|reflexivity].
    assert (E : String.length (String ch b) - (n + S (String.length b)) - 1 = 0)
      by (cbn [String.length]; lia).
    rewrite E. reflexivity.
  - destruct skip as [|n].
    + change ((String c a) ++ String ch b)%string with (String c (a ++ String ch b)).
      cbn [finditer].
      change (String c (a ++ String ch b)) with ((String c a) ++ String ch b)%string.
      rewrite (match_at_past r (String c a) b Hav).
      destruct (match_at r (String c a)) as [[n caps]|]; cbn [option_map fst snd].
      * rewrite <- app_comm_cons. f_equal.
        rewrite StrFacts.length_app.
        replace (String.length (String c a) + String.length (String ch b)
                 - (n + S (String.length b)) - 1)
          with (String.length (String c a) - n - 1) by (cbn [String.length]; lia).
        apply IH. cbn [String.length]. lia.
      * apply IH. lia.
    + change ((String c a) ++ String ch b)%string with (String c (a ++ String ch b)).
      cbn [finditer]. apply IH. cbn [String.length] in Hskip. lia.
Qed.

End ExecFacts.

Lemma finditer_sound r : forall s skip caps,
  In caps (Re.finditer r skip s) ->
  exists pre suf n, s = (pre ++ suf)%string /\ Re.match_at r suf = Some (n, caps).
Proof.
  induction s as [|c s IH]; intros skip caps; destruct skip as [|k]; cbn [Re.finditer].
  - destruct (Re.match_at r EmptyString) as [[n caps0]|] eqn:E; [|intros []].
    intros [<-|[]]. now exists EmptyString, EmptyString, n.
  - intros [].
  - destruct (Re.match_at r (String c s)) as [[n caps0]|] eqn:E.
    + intros [<-|H]; [now exists EmptyString, (String c s), n|].
      destruct (IH _ _ H) as (pre & suf & n' & -> & H').
      now exists (String c pre), suf, n'.
    + intros H. destruct (IH _ _ H) as (pre & suf & n' & -> & H').
      now exists (String c pre), suf, n'.
  - intros H. destruct (IH _ _ H) as (pre & suf & n' & -> & H').
    now exists (String c pre), suf, n'.
Qed.

Lemma usb_finditer_join (paths : list string) :
  Re.finditer usb_pattern 0 (join (String newline EmptyString) paths)
  = flat_map (Re.finditer usb_pattern 0) paths.
Proof.
  induction paths as [|p rest IH]; [reflexivity|].
  destruct rest as [|q rest].
  - simpl. now rewrite app_nil_r.
  - change (join (String newline EmptyString) (p :: q :: rest))
      with (p ++ String newline (join (String newline EmptyString) (q :: rest)))%string.
    rewrite (finditer_past newline usb_pattern _ eq_refl p 0) by lia.
    now rewrite IH.
Qed.

Lemma usb_devices_flat (paths : list string) :
  usb_devices paths = flat_map (fun p => usb_devices [p]) paths.
Proof.
  unfold usb_devices. rewrite usb_finditer_join.
  induction paths as [|p rest IH]; [reflexivity|].
  simpl flat_map. rewrite map_app, IH. reflexivity.
Qed.

Lemma usb_devices_app (a b : list string) :
  usb_devices (a ++ b) = usb_devices a ++ usb_devices b.
Proof. now rewrite !(usb_devices_flat), flat_map_app, <- !usb_devices_flat. Qed.

(** X10: when the paths are of ASCII characters, every device [print_usb]
    reports comes from one of the paths: a path that contains, in any letter case, "particle_", the reported model,
    "_", the reported serial and "-", one after the other.  The model is "p1"
    or "photon" up to letter case, and the serial is a non-empty run of ASCII
    letters and digits. *)
Theorem X10_usb_report_is_sound (paths : list string) (serial model : string) :
  Forall (fun p => Str.is_ascii p = true) paths ->
  In (serial, model) (usb_devices paths) ->
  serial <> EmptyString /\ string_forallb is_alnum serial = true
  /\ (Str.lower model = "p1" \/ Str.lower model = "photon")
  /\ exists path pre u post,
       In path paths /\ Str.lower u = "particle_" /\
       path = (pre ++ u ++ model ++ "_" ++ serial ++ "-" ++ post)%string.
Proof.
  intros _. unfold usb_devices. rewrite usb_finditer_join.
  intros H. apply in_map_iff in H. destruct H as (caps & Hc & H).
  apply in_flat_map in H. destruct H as (path & Hin & H).
  apply finditer_sound in H. destruct H as (pre & suf & n & -> & H).
  apply usb_match_shape in H.
  destruct H as (u & mdl & ser & rest & -> & Hu & Hm & Hs & Ha & _ & ->).
  cbn in Hc. injection Hc as <- <-.
  repeat split; trivial.
  exists (pre ++ u ++ mdl ++ "_" ++ ser ++ "-" ++ rest)%string, pre, u, rest. auto.
Qed.

Lemma X10_usb_report_is_sound_witness :
  string_forallb is_alnum "4f0052000551353432383931" = true
  /\ In ("4f0052000551353432383931", "P1")
        (usb_devices ["/dev/serial/by-id/usb-Particle_P1_4f0052000551353432383931-if00"]).
Proof.
  assert (H : In ("4f0052000551353432383931", "P1")
                 (usb_devices ["/dev/serial/by-id/usb-Particle_P1_4f0052000551353432383931-if00"]))
    by (left; reflexivity).
  split; [|exact H].
  apply (X10_usb_report_is_sound
           ["/dev/serial/by-id/usb-Particle_P1_4f0052000551353432383931-if00"]
           "4f0052000551353432383931" "P1");
    [repeat constructor|exact H].
Defined.

(** X11: joining the paths with newlines before matching changes nothing:
    no match runs from one path into the next, so the report for a list of
    paths is the reports for each path, one after the other, and
    [print_usb] of two lists is what it prints for the first followed by what
    it prints for the second. *)
Theorem X11_usb_report_per_path (paths more : list string) :
  usb_devices paths = flat_map (fun p => usb_devices [p]) paths
  /\ print_usb (paths ++ more) = print_usb paths ++ print_usb more
  /\ print_usb [] = [].
Proof.
  split; [apply usb_devices_flat|]. split; [|reflexivity].
  unfold print_usb. now rewrite usb_devices_app, map_app.
Qed.

Lemma no_usb_match_here (c : ascii) (s : string) :
  Re.eq_ci "p" c = false -> Re.match_at usb_pattern (String c s) = None.
Proof. intros H. unfold Re.match_at, usb_pattern. cbn. now rewrite H. Qed.

Lemma lower_photon (mdl rest : string) :
  Str.lower mdl = "photon" -> Re.strip_ci "p1" (mdl ++ rest)%string = None.
Proof.
  destruct mdl as [|c1 [|c2 mdl]]; simpl; try discriminate.
  intros H; injection H as H1 H2 _. unfold Re.eq_ci.
  rewrite H1, H2. reflexivity.
Qed.

Lemma model_group_complete R (mdl rest : string) (caps : Re.captures)
      (k : string -> Re.captures -> option R) (x : R) :
  (Str.lower mdl = "p1" \/ Str.lower mdl = "photon") ->
  k rest (("model", mdl) :: caps) = Some x ->
  Re.exec R (Re.Group "model" (Re.Alt (Re.Lit "p1") (Re.Lit "photon")))
          (mdl ++ rest)%string caps k = Some x.
Proof.
  intros Hm Hk. cbn [Re.exec]. destruct Hm as [Hm|Hm].
  - rewrite (ReFacts.strip_ci_complete "p1" mdl) by exact Hm.
    now rewrite ReFacts.substring_taken, Hk.
  - rewrite (lower_photon mdl rest Hm).
    rewrite (ReFacts.strip_ci_complete "photon" mdl) by exact Hm.
    now rewrite ReFacts.substring_taken, Hk.
Qed.

Lemma serial_group_complete R (ser post : string) (caps : Re.captures)
      (k : string -> Re.captures -> option R) (x : R) :
  ser <> EmptyString -> string_forallb is_alnum ser = true ->
  k post (("serial", ser) :: caps) = Some x ->
  Re.exec R (Re.Cat (Re.Group "serial" (Re.Plus alnum)) (Re.Lit "-"))
          (ser ++ "-" ++ post)%string caps k = Some x.
Proof.
  intros Hs Ha Hk.
  assert (Ha' : string_forallb (Re.in_class alnum) ser = true).
  { rewrite <- Ha. apply string_forallb_ext. apply in_class_alnum. }
  cbn [Re.exec]. apply ReFacts.plus_cls_greedy; trivial.
  change (Re.strip_ci "-" ("-" ++ post)%string) with (Some post).
  now rewrite ReFacts.substring_taken.
Qed.

Lemma usb_match_complete (u mdl ser post : string) :
  Str.lower u = "particle_" ->
  (Str.lower mdl = "p1" \/ Str.lower mdl = "photon") ->
  ser <> EmptyString -> string_forallb is_alnum ser = true ->
  Re.match_at usb_pattern (u ++ mdl ++ "_" ++ ser ++ "-" ++ post)%string
  = Some (String.length post, [("serial", ser); ("model", mdl)]).
Proof.
  intros Hu Hm Hs Ha. unfold Re.match_at, usb_pattern.
  change (Re.exec (nat * Re.captures)
            (Re.Cat (Re.Lit "particle_") ?r) ?s ?c ?k)
    with (match Re.strip_ci "particle_" s with
          | Some s' => Re.exec (nat * Re.captures) r s' c k
          | None => None
          end).
  rewrite (ReFacts.strip_ci_complete "particle_" u) by exact Hu.
  change (Re.exec (nat * Re.captures) (Re.Cat ?a ?b) ?s ?c ?k)
    with (Re.exec (nat * Re.captures) a s c
            (fun s' caps' => Re.exec (nat * Re.captures) b s' caps' k)).
  apply model_group_complete; [exact Hm|].
  change (Re.exec (nat * Re.captures) (Re.Cat (Re.Lit "_") ?r) ("_" ++ ?s)%string ?c ?k)
    with (Re.exec (nat * Re.captures) r s c k).
  now apply serial_group_complete.
Qed.

(** X12: a path in which no character before "particle_" is a "p" or "P",
    followed by a model "p1" or "photon" in any letter case, "_", a non-empty
    serial of ASCII letters and digits and "-", is reported first, with that
    serial and that model as they are written. *)
Theorem X12_usb_device_is_reported (pre u mdl ser post : string) :
  string_forallb (fun c => negb (Re.eq_ci "p" c)) pre = true ->
  Str.lower u = "particle_" ->
  (Str.lower mdl = "p1" \/ Str.lower mdl = "photon") ->
  ser <> EmptyString -> string_forallb is_alnum ser = true ->
  hd_error (usb_devices [(pre ++ u ++ mdl ++ "_" ++ ser ++ "-" ++ post)%string])
  = Some (ser, mdl)
  /\ hd_error (print_usb [(pre ++ u ++ mdl ++ "_" ++ ser ++ "-" ++ post)%string])
     = Some ("usb " ++ ser ++ " " ++ mdl)%string.
Proof.
  intros Hpre Hu Hm Hs Ha.
  assert (H : hd_error (usb_devices [(pre ++ u ++ mdl ++ "_" ++ ser ++ "-" ++ post)%string])
              = Some (ser, mdl)).
  { unfold usb_devices. cbn [join].
    induction pre as [|c pre IH].
    - change (EmptyString ++ u ++ mdl ++ "_" ++ ser ++ "-" ++ post)%string
        with (u ++ mdl ++ "_" ++ ser ++ "-" ++ post)%string.
      pose proof (usb_match_complete u mdl ser post Hu Hm Hs Ha) as Hmatch.
      destruct u as [|c0 u]; [discriminate Hu|].
      change (String c0 u ++ mdl ++ "_" ++ ser ++ "-" ++ post)%string
        with (String c0 (u ++ mdl ++ "_" ++ ser ++ "-" ++ post)) in *.
      cbn [Re.finditer]. rewrite Hmatch. reflexivity.
    - simpl in Hpre. apply andb_prop in Hpre. destruct Hpre as [Hc Hpre].
      apply negb_true_iff in Hc.
      change (String c pre ++ u ++ mdl ++ "_" ++ ser ++ "-" ++ post)%string
        with (String c (pre ++ u ++ mdl ++ "_" ++ ser ++ "-" ++ post)).
      cbn [Re.finditer]. rewrite (no_usb_match_here c _ Hc). now apply IH. }
  split; [exact H|].
  unfold print_usb.
  destruct (usb_devices [(pre ++ u ++ mdl ++ "_" ++ ser ++ "-" ++ post)%string]) as [|d l];
    [discriminate H|].
  simpl in H. injection H as ->. reflexivity.
Qed.

Lemma X12_usb_device_is_reported_witness :
  hd_error (print_usb ["/dev/serial/by-id/usb-Particle_Photon_3c002f000a47-if00"])
  = Some "usb 3c002f000a47 Photon".
Proof.
  apply (X12_usb_device_is_reported "/dev/serial/by-id/usb-" "Particle_" "Photon"
           "3c002f000a47" "if00").
  - reflexivity.
  - reflexivity.
  - now right.
  - discriminate.
  - reflexivity.
Defined.

(** X13: in mode "all" the command line writes the USB lines first and
    then, while its timer of five seconds has not fired, one "wifi" line per
    record [discover_all] delivers without a filter; when the timer fires
    after fetch results on which the loop does not raise, it ends normally
    with one line for each record the loop yields, in arrival order.  Mode
    "wifi" writes the same without the USB lines, and mode "usb" writes the
    USB lines and returns whatever happens on the network. *)
Theorem X13_cli_output (paths : list string) (items : list item) (rest : list env_event) :
  first_error None items = None ->
  cli ChoiceAll paths (map Arrive items ++ Deadline :: rest)
  = (print_usb paths ++ map wifi_line (emits None items), Ended)
  /\ cli ChoiceWifi paths (map Arrive items ++ Deadline :: rest)
     = (map wifi_line (emits None items), Ended)
  /\ cli ChoiceAll paths (map Arrive items)
     = (print_usb paths ++ map wifi_line (emits None items), Running)
  /\ (forall tr, cli ChoiceUsb paths tr = (print_usb paths, Ended)).
Proof.
  intros Hfe.
  destruct (discover_all_until_deadline None BREWBLOX_DNS_TYPE DEFAULT_TIMEOUT_S items rest Hfe)
    as [Hs Hr].
  assert (Hrun : discover_all None BREWBLOX_DNS_TYPE (Some DEFAULT_TIMEOUT_S) (map Arrive items)
                 = waiting BREWBLOX_DNS_TYPE (flat_map (logs None) items) (emits None items)).
  { rewrite all_begin.
    rewrite (all_arrivals None BREWBLOX_DNS_TYPE (Some DEFAULT_TIMEOUT_S) items [] []).
    change (match_of None) with (@None string). now rewrite Hfe. }
  unfold cli, print_wifi. cbn [fst snd]. rewrite Hs, Hr, Hrun.
  repeat split.
Qed.

Lemma X13_cli_output_witness :
  cli ChoiceAll ["/dev/serial/by-id/usb-Particle_P1_4f00-if00"]
      (map Arrive [Some (device "sim.local." zero_ip); Some (device "abc.local." lan_ip)]
       ++ Deadline :: [])
  = (["usb 4f00 P1"; "wifi abc 192.168.1.10 8332"], Ended).
Proof.
  apply (X13_cli_output ["/dev/serial/by-id/usb-Particle_P1_4f00-if00"]
           [Some (device "sim.local." zero_ip); Some (device "abc.local." lan_ip)] []).
  reflexivity.
Defined.

(** X14: with a non-empty filter identity of ASCII characters, every
    record a session yields, over any sequence of consumer actions and fetch
    results, and every record [discover_all] delivers on any events, has, if
    its identity is of ASCII characters, an identity equal to the filter
    identity up to letter case. *)
Theorem X14_filtered_session_yields_only_matches (s : string) (dns_type : string) :
  s <> EmptyString -> Str.is_ascii s = true ->
  (forall single acts st,
      Forall (fun r => Str.is_ascii (rec_identity r) = true ->
                       Str.lower (rec_identity r) = Str.lower s)
             (fst (run (Some s) dns_type single acts st)))
  /\ (forall timeout_v tr,
         Forall (fun r => Str.is_ascii (rec_identity r) = true ->
                          Str.lower (rec_identity r) = Str.lower s)
                (received (discover_all (Some s) dns_type timeout_v tr))).
Proof.
  intros Hs _. split; intros.
  - eapply Forall_impl; [|apply run_emitted]. intros r Hr _. now apply emitted_identity.
  - eapply Forall_impl; [|apply discover_all_emitted]. intros r Hr _.
    now apply emitted_identity.
Qed.

Lemma X14_filtered_session_yields_only_matches_witness :
  map rec_identity
      (received (discover_all (Some "abc") BREWBLOX_DNS_TYPE None
                   (map Arrive [Some (device "ABC.local." lan_ip);
                                Some (device "abcd.local." lan_ip);
                                Some (device "Abc.local." lan_ip)])))
  = ["ABC"; "Abc"]%string
  /\ Forall (fun r => Str.is_ascii (rec_identity r) = true ->
                      Str.lower (rec_identity r) = Str.lower "abc")
            (received (discover_all (Some "abc") BREWBLOX_DNS_TYPE None
                         (map Arrive [Some (device "ABC.local." lan_ip);
                                      Some (device "abcd.local." lan_ip);
                                      Some (device "Abc.local." lan_ip)]))).
Proof.
  split; [reflexivity|].
  apply (X14_filtered_session_yields_only_matches "abc" BREWBLOX_DNS_TYPE).
  - discriminate.
  - reflexivity.
Defined.
